(** * holo: token stream and Pratt parser

    A shallow embedding of [src/compile/stream/token-stream.ts] and
    [src/syntax/parse.ts].  Methods that read or move the cursor are
    computations in a small state-and-exception monad; the loops and the
    mutual recursion of the parser are driven by a fuel counter. *)

From stdpp Require Import base list strings.
From Stdlib Require Import ZArith Lia.

(** ** Tokens *)

(** Source locations, [{ line, column }].  The end-of-stream token uses
    [-1] for both, so the fields are integers. *)
Record Loc : Type := mkLoc { line : Z; column : Z }.

Module TokenKind.

(** Modelled from the spec: the enumeration [TokenKind] of [token.ts],
    which is not part of the sources at hand.  The members are the ones
    [parse.ts] and [token-stream.ts] name, completed by the closed set of
    section 6 of the specification. *)
Inductive t : Set :=
| EOF | Identifier | NumberLiteral
| Fn | Var | If | Else | While | Do
| OpenParen | CloseParen | OpenBrace | CloseBrace
| OpenBracket | CloseBracket | Comma | SemiColon
| Plus | Minus | Asterisk | Slash | Percent
| Lt | Lte | Gt | Gte | Eq2 | NotEq | And2 | Or2 | Not | Eq.

#[global] Instance eq_dec : EqDecision t.
Proof. solve_decision. Defined.

(** [TokenKind[k]]: the reverse mapping of a TypeScript numeric enum
    gives the name of the member. *)
Definition name (k : t) : string :=
  match k return string with
  | EOF => "EOF" | Identifier => "Identifier"
  | NumberLiteral => "NumberLiteral"
  | Fn => "Fn" | Var => "Var" | If => "If" | Else => "Else"
  | While => "While" | Do => "Do"
  | OpenParen => "OpenParen" | CloseParen => "CloseParen"
  | OpenBrace => "OpenBrace" | CloseBrace => "CloseBrace"
  | OpenBracket => "OpenBracket" | CloseBracket => "CloseBracket"
  | Comma => "Comma" | SemiColon => "SemiColon"
  | Plus => "Plus" | Minus => "Minus" | Asterisk => "Asterisk"
  | Slash => "Slash" | Percent => "Percent"
  | Lt => "Lt" | Lte => "Lte" | Gt => "Gt" | Gte => "Gte"
  | Eq2 => "Eq2" | NotEq => "NotEq" | And2 => "And2" | Or2 => "Or2"
  | Not => "Not" | Eq => "Eq"
  end.

End TokenKind.

(** Modelled from the spec: the type [Token] of [token.ts],
    [{ kind, value?, loc }].  An absent [value] is [None]. *)
Module Token.
Record t : Type := mk {
  kind : TokenKind.t;
  value : option string;
  loc : Loc
}.
End Token.

(** Modelled from the spec: the constructor function [TOKEN(kind, loc)] of
    [token.ts], called here without a text payload. *)
Definition TOKEN (kind : TokenKind.t) (loc : Loc) : Token.t :=
  {| Token.kind := kind; Token.value := None; Token.loc := loc |}.

(** The token every method synthesizes once the cursor is exhausted:
    [TOKEN(TokenKind.EOF, { line: -1, column: -1 })]. *)
Definition EndOfStream : Token.t :=
  TOKEN TokenKind.EOF {| line := -1; column := -1 |}.

(** ** Exceptions and the monad of methods *)

(** What a [throw] carries.  [token-stream.ts] throws the value built by
    the helper [error(message, loc)]; [parse.ts] throws [new Error(message)],
    which has a message and nothing else. *)
Inductive Exception : Type :=
| SyntaxError (message : string) (loc : Loc)
| Error (message : string).

(** Modelled from the spec: [error(message, loc)] of [util/error.js], the
    syntax error carrying a message and the location of the offending
    token. *)
Definition error (message : string) (loc : Loc) : Exception :=
  SyntaxError message loc.

Definition exceptionLoc (e : Exception) : option Loc :=
  match e with
  | SyntaxError _ l => Some l
  | Error _ => None
  end.

(** The outcome of running a method or a parsing function from a given
    state: a normal return, a thrown exception (the object keeps whatever
    mutation happened before the throw), or a run that used up its fuel. *)
Inductive Outcome (S A : Type) : Type :=
| Return (a : A) (s : S)
| Throw (e : Exception) (s : S)
| OutOfFuel.

Arguments Return {S A} a s.
Arguments Throw {S A} e s.
Arguments OutOfFuel {S A}.

Definition M (S A : Type) : Type := S → Outcome S A.

#[global] Instance M_ret {S} : MRet (M S) := λ A a s, Return a s.

#[global] Instance M_bind {S} : MBind (M S) := λ A B f m s,
  match m s with
  | Return a s' => f a s'
  | Throw e s' => Throw e s'
  | OutOfFuel => OutOfFuel
  end.

Definition throw {S A} (e : Exception) : M S A := λ s, Throw e s.

Definition outOfFuel {S A} : M S A := λ _, OutOfFuel.

(** The state an outcome leaves behind; a run out of fuel never got
    anywhere. *)
Definition stateAfter {S A} (o : Outcome S A) (s0 : S) : S :=
  match o with
  | Return _ s | Throw _ s => s
  | OutOfFuel => s0
  end.

(** ** The interface [ITokenStream] *)

Class ITokenStream (S : Type) : Type := {
  getToken : M S Token.t;
  getKind : M S TokenKind.t;
  next : M S ();
  lookahead : nat → M S Token.t;
  expect : TokenKind.t → M S ();
  nextWith : TokenKind.t → M S ()
}.

(** ** The class [TokenStream] *)

Module TokenStream.

Record t : Type := mk {
  source : list Token.t;
  index : nat;
  _token : Token.t
}.

Definition set_index (i : nat) (this : t) : t :=
  {| source := source this; index := i; _token := _token this |}.

Definition set__token (tok : Token.t) (this : t) : t :=
  {| source := source this; index := index this; _token := tok |}.

(** [get eof(): this.index >= this.source.length]. *)
Definition eof (this : t) : bool :=
  bool_decide (List.length (source this) ≤ index this)%nat.

(** [load()].  [source[index]!] is only evaluated under [!eof], where
    the element exists; the default stands for the [undefined] that the
    guard rules out. *)
Definition load : M t () := λ this,
  if eof this then
    Return () (set__token EndOfStream this)
  else
    Return () (set__token (default EndOfStream (source this !! index this)) this).

(** [constructor(source)]: the fields are set and [load()] fills
    [_token], which has no value before that. *)
Definition new (source : list Token.t) : t :=
  stateAfter
    (load {| source := source; index := 0; _token := EndOfStream |})
    {| source := source; index := 0; _token := EndOfStream |}.

Definition getToken : M t Token.t := λ this,
  if eof this then Return EndOfStream this
  else Return (_token this) this.

Definition getKind : M t TokenKind.t :=
  tok ← getToken; mret (Token.kind tok).

Definition next : M t () := λ this,
  load (if negb (eof this) then set_index (S (index this)) this else this).

(** [lookahead(offset)], for the offsets the interface is meant for, the
    non-negative integers. *)
Definition lookahead (offset : nat) : M t Token.t := λ this,
  if bool_decide (index this + offset < List.length (source this))%nat then
    Return (default EndOfStream (source this !! (index this + offset))) this
  else
    Return EndOfStream this.

Definition expect (kind : TokenKind.t) : M t () :=
  k ← getKind;
  if bool_decide (k ≠ kind) then
    k' ← getKind;
    tok ← getToken;
    throw (error ("unexpected token: "%string +:+ TokenKind.name k') (Token.loc tok))
  else mret ().

Definition nextWith (kind : TokenKind.t) : M t () :=
  expect kind;; next.

(** Clients reach the object only through its public methods. *)
Inductive Call : Type :=
| CallGetToken
| CallGetKind
| CallNext
| CallLookahead (offset : nat)
| CallExpect (kind : TokenKind.t)
| CallNextWith (kind : TokenKind.t).

(** The object after one call, whether it returned or threw. *)
Definition call (c : Call) (this : t) : t :=
  match c with
  | CallGetToken => stateAfter (getToken this) this
  | CallGetKind => stateAfter (getKind this) this
  | CallNext => stateAfter (next this) this
  | CallLookahead offset => stateAfter (lookahead offset this) this
  | CallExpect kind => stateAfter (expect kind this) this
  | CallNextWith kind => stateAfter (nextWith kind this) this
  end.

Definition calls (cs : list Call) (this : t) : t :=
  foldl (λ s c, call c s) this cs.

(** The class invariant: below the end, the cached [_token] is the
    element under the cursor; at the end it is the sentinel. *)
Definition loaded (this : t) : Prop :=
  _token this =
    if eof this then EndOfStream
    else default EndOfStream (source this !! index this).

End TokenStream.

(** [class TokenStream implements ITokenStream]. *)
#[global] Instance TokenStream_ITokenStream : ITokenStream TokenStream.t := {|
  getToken := TokenStream.getToken;
  getKind := TokenStream.getKind;
  next := TokenStream.next;
  lookahead := TokenStream.lookahead;
  expect := TokenStream.expect;
  nextWith := TokenStream.nextWith
|}.

(** ** Syntax trees *)

Module UnaryMode.
(** [type UnaryMode = 'not' | 'plus' | 'minus']. *)
Inductive t : Set := not | plus | minus.
End UnaryMode.

Module BinaryMode.
(** The modes [parseInfix] assigns. *)
Inductive t : Set :=
| mul | div | rem | add | sub
| lt | lte | gt | gte | eq | neq | and | or.
End BinaryMode.

Module WhileMode.
(** ['while'] and ['do-while']. *)
Inductive t : Set := while | do_while.
End WhileMode.

(** [Number(source)].  The conversion yields a floating-point number; the
    tree keeps it as the conversion applied to its argument. *)
Inductive JsNumber : Type :=
| Number (source : option string).

(** Modelled from the spec: the node classes of [node.ts], with the
    constructor arguments in the order [parse.ts] passes them.  Text taken
    from a token ([value!], an assertion that is erased when the program
    runs) is [None] when the token has no payload; an omitted optional
    child is [None]. *)
#[warnings="-register-all"]
Inductive Node : Type :=
| Unit (decls : list Node) (loc : Loc)
| FunctionDecl (name : option string) (params : list (option string))
    (body : list Node) (loc : Loc)
| VariableDecl (name : option string) (body : option Node) (loc : Loc)
| Block (steps : list Node) (loc : Loc)
| If (cond thenBlock : Node) (elseBlock : option Node) (loc : Loc)
| While (mode : WhileMode.t) (cond : Node) (body : list Node) (loc : Loc)
| Assign (name : option string) (value : Node) (loc : Loc)
| Binary (mode : BinaryMode.t) (left right : Node) (loc : Loc)
| Unary (mode : UnaryMode.t) (expr : Node) (loc : Loc)
| NumberLiteral (value : JsNumber) (loc : Loc)
| Reference (name : option string) (loc : Loc).

(** ** The operator table *)

Module PrefixToken.
(** [type PrefixToken]. *)
Inductive t : Set := Not | Plus | Minus.

Definition kind (tok : t) : TokenKind.t :=
  match tok with
  | Not => TokenKind.Not
  | Plus => TokenKind.Plus
  | Minus => TokenKind.Minus
  end.
End PrefixToken.

Module InfixToken.
(** [type InfixToken]. *)
Inductive t : Set :=
| Asterisk | Slash | Percent | Plus | Minus
| Lt | Lte | Gt | Gte | Eq2 | NotEq | And2 | Or2.

Definition kind (tok : t) : TokenKind.t :=
  match tok with
  | Asterisk => TokenKind.Asterisk
  | Slash => TokenKind.Slash
  | Percent => TokenKind.Percent
  | Plus => TokenKind.Plus
  | Minus => TokenKind.Minus
  | Lt => TokenKind.Lt
  | Lte => TokenKind.Lte
  | Gt => TokenKind.Gt
  | Gte => TokenKind.Gte
  | Eq2 => TokenKind.Eq2
  | NotEq => TokenKind.NotEq
  | And2 => TokenKind.And2
  | Or2 => TokenKind.Or2
  end.
End InfixToken.

Module PostfixToken.
(** [type PostfixToken]. *)
Inductive t : Set := OpenBracket | OpenParen.

Definition kind (tok : t) : TokenKind.t :=
  match tok with
  | OpenBracket => TokenKind.OpenBracket
  | OpenParen => TokenKind.OpenParen
  end.
End PostfixToken.

Module PrefixInfo.
Record t : Set := mk { token : PrefixToken.t; bp : nat }.
End PrefixInfo.

Module InfixInfo.
Record t : Set := mk { token : InfixToken.t; lbp : nat; rbp : nat }.
End InfixInfo.

Module PostfixInfo.
Record t : Set := mk { token : PostfixToken.t; bp : nat }.
End PostfixInfo.

(** [type OpInfo = PrefixInfo | InfixInfo | PostfixInfo], told apart by
    the [kind] tag. *)
Inductive OpInfo : Set :=
| Prefix (info : PrefixInfo.t)
| Infix (info : InfixInfo.t)
| Postfix (info : PostfixInfo.t).

Definition prefixOp (token : PrefixToken.t) (bp : nat) : OpInfo :=
  Prefix (PrefixInfo.mk token bp).

Definition infixOp (token : InfixToken.t) (lbp rbp : nat) : OpInfo :=
  Infix (InfixInfo.mk token lbp rbp).

Definition postfixOp (token : PostfixToken.t) (bp : nat) : OpInfo :=
  Postfix (PostfixInfo.mk token bp).

Definition operators : list OpInfo := [
  postfixOp PostfixToken.OpenParen 90;
  postfixOp PostfixToken.OpenBracket 90;
  prefixOp PrefixToken.Not 80;
  prefixOp PrefixToken.Plus 80;
  prefixOp PrefixToken.Minus 80;
  infixOp InfixToken.Asterisk 70 71;
  infixOp InfixToken.Slash 70 71;
  infixOp InfixToken.Percent 70 71;
  infixOp InfixToken.Plus 60 61;
  infixOp InfixToken.Minus 60 61;
  infixOp InfixToken.Lt 50 51;
  infixOp InfixToken.Lte 50 51;
  infixOp InfixToken.Gt 50 51;
  infixOp InfixToken.Gte 50 51;
  infixOp InfixToken.Eq2 40 41;
  infixOp InfixToken.NotEq 40 41;
  infixOp InfixToken.And2 30 31;
  infixOp InfixToken.Or2 20 21
].

(** [Array.prototype.find] with a type guard: the first element the guard
    accepts, at the narrowed type, or [None] for [undefined]. *)
Fixpoint find {A B : Type} (guard : A → option B) (l : list A) : option B :=
  match l with
  | [] => None
  | x :: l' =>
      match guard x with
      | Some y => Some y
      | None => find guard l'
      end
  end.

(** [(x): x is PrefixInfo => x.kind == 'prefix' && x.token == kind]. *)
Definition isPrefixFor (kind : TokenKind.t) (x : OpInfo) : option PrefixInfo.t :=
  match x with
  | Prefix info =>
      if bool_decide (PrefixToken.kind (PrefixInfo.token info) = kind)
      then Some info else None
  | _ => None
  end.

(** [(x): x is InfixInfo => x.kind == 'infix' && x.token == kind]. *)
Definition isInfixFor (kind : TokenKind.t) (x : OpInfo) : option InfixInfo.t :=
  match x with
  | Infix info =>
      if bool_decide (InfixToken.kind (InfixInfo.token info) = kind)
      then Some info else None
  | _ => None
  end.

(** The [switch (info.token)] of [parsePrefix]. *)
Definition unaryMode (token : PrefixToken.t) : UnaryMode.t :=
  match token with
  | PrefixToken.Not => UnaryMode.not
  | PrefixToken.Plus => UnaryMode.plus
  | PrefixToken.Minus => UnaryMode.minus
  end.

(** The [switch (info.token)] of [parseInfix]. *)
Definition binaryMode (token : InfixToken.t) : BinaryMode.t :=
  match token with
  | InfixToken.Asterisk => BinaryMode.mul
  | InfixToken.Slash => BinaryMode.div
  | InfixToken.Percent => BinaryMode.rem
  | InfixToken.Plus => BinaryMode.add
  | InfixToken.Minus => BinaryMode.sub
  | InfixToken.Lt => BinaryMode.lt
  | InfixToken.Lte => BinaryMode.lte
  | InfixToken.Gt => BinaryMode.gt
  | InfixToken.Gte => BinaryMode.gte
  | InfixToken.Eq2 => BinaryMode.eq
  | InfixToken.NotEq => BinaryMode.neq
  | InfixToken.And2 => BinaryMode.and
  | InfixToken.Or2 => BinaryMode.or
  end.

(** ** The parser *)

Section Parser.

Context {Stream : Type} `{!ITokenStream Stream}.

Local Abbreviation Parser := (M Stream).

(** The [while] loop of [parseParams]; [items] is the array built so
    far. *)
Fixpoint parseParams_loop (fuel : nat) (items : list (option string))
  : Parser (list (option string)) :=
  match fuel with
  | 0 => outOfFuel
  | S fuel =>
      k ← getKind;
      if bool_decide (k ≠ TokenKind.CloseParen) then
        (if bool_decide (0 < List.length items)%nat
         then nextWith TokenKind.Comma else mret ());;
        expect TokenKind.Identifier;;
        tok ← getToken;
        let name := Token.value tok in
        next;;
        parseParams_loop fuel (items ++ [name])
      else mret items
  end.

Definition parseParams (fuel : nat) : Parser (list (option string)) :=
  nextWith TokenKind.OpenParen;;
  items ← parseParams_loop fuel [];
  nextWith TokenKind.CloseParen;;
  mret items.

(** [parseStep] is a stub: whatever the stream holds, it throws
    [new Error('todo')]. *)
Definition parseStep : Parser Node :=
  throw (Error "todo").

(** The [while] loop of [parseBlock]. *)
Fixpoint parseBlock_loop (fuel : nat) (steps : list Node)
  : Parser (list Node) :=
  match fuel with
  | 0 => outOfFuel
  | S fuel =>
      k ← getKind;
      if bool_decide (k ≠ TokenKind.CloseBrace) then
        step ← parseStep;
        parseBlock_loop fuel (steps ++ [step])
      else mret steps
  end.

Definition parseBlock (fuel : nat) : Parser (list Node) :=
  nextWith TokenKind.OpenBrace;;
  steps ← parseBlock_loop fuel [];
  nextWith TokenKind.CloseBrace;;
  mret steps.

(** The functions below call each other in a cycle that always passes
    through [parsePratt]; they are written over the [parsePratt] of the
    next lower fuel, and the knot is tied afterwards. *)
Section Knot.

Variable parsePratt_rec : nat → Parser Node.

Definition parseExpr_ : Parser Node :=
  parsePratt_rec 0.

Definition parseCond_ : Parser Node :=
  nextWith TokenKind.OpenParen;;
  expr ← parseExpr_;
  nextWith TokenKind.CloseParen;;
  mret expr.

Definition parseIf_ (fuel : nat) : Parser Node :=
  tok ← getToken;
  let loc := Token.loc tok in
  nextWith TokenKind.If;;
  cond ← parseCond_;
  tok ← getToken;
  let thenLoc := Token.loc tok in
  thenSteps ← parseBlock fuel;
  let thenBlock := Block thenSteps thenLoc in
  k ← getKind;
  elseBlock ←
    (if bool_decide (k = TokenKind.Else) then
       tok ← getToken;
       let elseLoc := Token.loc tok in
       next;;
       elseSteps ← parseBlock fuel;
       mret (Some (Block elseSteps elseLoc))
     else mret None);
  mret (If cond thenBlock elseBlock loc).

Definition parseWhile_ (fuel : nat) : Parser Node :=
  tok ← getToken;
  let loc := Token.loc tok in
  k ← getKind;
  if bool_decide (k = TokenKind.While) then
    nextWith TokenKind.While;;
    cond ← parseCond_;
    body ← parseBlock fuel;
    mret (While WhileMode.while cond body loc)
  else
    nextWith TokenKind.Do;;
    body ← parseBlock fuel;
    nextWith TokenKind.While;;
    cond ← parseCond_;
    mret (While WhileMode.do_while cond body loc).

Definition parsePrefix_ (info : PrefixInfo.t) : Parser Node :=
  tok ← getToken;
  let loc := Token.loc tok in
  next;;
  right ← parsePratt_rec (PrefixInfo.bp info);
  let mode := unaryMode (PrefixInfo.token info) in
  mret (Unary mode right loc).

Definition parseInfix_ (left : Node) (info : InfixInfo.t) : Parser Node :=
  tok ← getToken;
  let loc := Token.loc tok in
  next;;
  right ← parsePratt_rec (InfixInfo.rbp info);
  let mode := binaryMode (InfixInfo.token info) in
  mret (Binary mode left right loc).

Definition parseAtom_ (fuel : nat) : Parser Node :=
  tok ← getToken;
  let loc := Token.loc tok in
  k ← getKind;
  match k with
  | TokenKind.NumberLiteral =>
      tok ← getToken;
      let source := Token.value tok in
      next;;
      let value := Number source in
      mret (NumberLiteral value loc)
  | TokenKind.Identifier =>
      tok ← getToken;
      let name := Token.value tok in
      next;;
      mret (Reference name loc)
  | TokenKind.If => parseIf_ fuel
  | TokenKind.OpenParen =>
      next;;
      expr ← parseExpr_;
      nextWith TokenKind.CloseParen;;
      mret expr
  | _ =>
      k ← getKind;
      throw (Error ("unexpected token: " +:+ TokenKind.name k))
  end.

(** The [while (true)] loop of [parsePratt]. *)
Fixpoint parsePratt_loop (fuel : nat) (minBp : nat) (left : Node)
  : Parser Node :=
  match fuel with
  | 0 => outOfFuel
  | S fuel =>
      kind ← getKind;
      match find (isInfixFor kind) operators with
      | Some infix =>
          if bool_decide (InfixInfo.lbp infix < minBp)%nat then
            mret left
          else
            left ← parseInfix_ left infix;
            parsePratt_loop fuel minBp left
      | None => mret left
      end
  end.

Definition parsePratt_ (fuel : nat) (minBp : nat) : Parser Node :=
  kind ← getKind;
  let prefix := find (isPrefixFor kind) operators in
  left ←
    match prefix with
    | Some prefix => parsePrefix_ prefix
    | None => parseAtom_ fuel
    end;
  parsePratt_loop fuel minBp left.

End Knot.

Fixpoint parsePratt (fuel : nat) (minBp : nat) : Parser Node :=
  match fuel with
  | 0 => outOfFuel
  | S fuel => parsePratt_ (parsePratt fuel) fuel minBp
  end.

Definition parseExpr (fuel : nat) : Parser Node :=
  parseExpr_ (parsePratt fuel).

Definition parseCond (fuel : nat) : Parser Node :=
  parseCond_ (parsePratt fuel).

Definition parseIf (fuel : nat) : Parser Node :=
  parseIf_ (parsePratt fuel) fuel.

Definition parseWhile (fuel : nat) : Parser Node :=
  parseWhile_ (parsePratt fuel) fuel.

Definition parsePrefix (fuel : nat) : PrefixInfo.t → Parser Node :=
  parsePrefix_ (parsePratt fuel).

Definition parseInfix (fuel : nat) : Node → InfixInfo.t → Parser Node :=
  parseInfix_ (parsePratt fuel).

Definition parseAtom (fuel : nat) : Parser Node :=
  parseAtom_ (parsePratt fuel) fuel.

Definition parseFunctionDecl (fuel : nat) : Parser Node :=
  tok ← getToken;
  let loc := Token.loc tok in
  nextWith TokenKind.Fn;;
  expect TokenKind.Identifier;;
  tok ← getToken;
  let name := Token.value tok in
  next;;
  params ← parseParams fuel;
  body ← parseBlock fuel;
  mret (FunctionDecl name params body loc).

Definition parseVariableDecl (fuel : nat) : Parser Node :=
  tok ← getToken;
  let loc := Token.loc tok in
  nextWith TokenKind.Var;;
  expect TokenKind.Identifier;;
  tok ← getToken;
  let name := Token.value tok in
  next;;
  k ← getKind;
  body ←
    (if bool_decide (k = TokenKind.Eq) then
       next;;
       body ← parseExpr fuel;
       mret (Some body)
     else mret None);
  nextWith TokenKind.SemiColon;;
  mret (VariableDecl name body loc).

(** The [while] loop of [parse].  The [switch] has a case for [Fn] and
    one for [Var] and no [default]: on any other kind the body does
    nothing and the loop tests the same cursor again. *)
Fixpoint parse_loop (fuel : nat) (decls : list Node) : Parser (list Node) :=
  match fuel with
  | 0 => outOfFuel
  | S fuel =>
      k ← getKind;
      if bool_decide (k ≠ TokenKind.EOF) then
        k ← getKind;
        match k with
        | TokenKind.Fn =>
            decl ← parseFunctionDecl fuel;
            parse_loop fuel (decls ++ [decl])
        | TokenKind.Var =>
            decl ← parseVariableDecl fuel;
            parse_loop fuel (decls ++ [decl])
        | _ => parse_loop fuel decls
        end
      else mret decls
  end.

(** [parse].  The source builds its stream with [new Scanner(input)] and
    uses it through [getKind] and the functions above only; here the
    stream is the one the computation is run on. *)
Definition parse (fuel : nat) : Parser Node :=
  decls ← parse_loop fuel [];
  mret (Unit decls {| line := 1; column := 1 |}).

End Parser.

(** ** Vocabulary of the statements *)

(** A token that is an operand by itself: an identifier or a number. *)
Definition operand (tok : Token.t) : bool :=
  match Token.kind tok with
  | TokenKind.Identifier | TokenKind.NumberLiteral => true
  | _ => false
  end.

(** The node [parseAtom] builds from a one-token operand. *)
Definition leaf (tok : Token.t) : Node :=
  match Token.kind tok with
  | TokenKind.NumberLiteral =>
      NumberLiteral (Number (Token.value tok)) (Token.loc tok)
  | _ => Reference (Token.value tok) (Token.loc tok)
  end.

(** The token of a table entry, as the scanner hands it over at [loc]. *)
Definition infixToken (info : InfixInfo.t) (loc : Loc) : Token.t :=
  TOKEN (InfixToken.kind (InfixInfo.token info)) loc.

(** The same for a prefix entry. *)
Definition prefixToken (info : PrefixInfo.t) (loc : Loc) : Token.t :=
  TOKEN (PrefixToken.kind (PrefixInfo.token info)) loc.

(** The stream over [tokens] once every token has been consumed. *)
Definition consumed (tokens : list Token.t) : TokenStream.t :=
  {| TokenStream.source := tokens;
     TokenStream.index := List.length tokens;
     TokenStream._token := EndOfStream |}.

(** An identifier token with its text. *)
Definition identifier (name : string) (loc : Loc) : Token.t :=
  {| Token.kind := TokenKind.Identifier;
     Token.value := Some name;
     Token.loc := loc |}.

(** A location on the first line. *)
Definition col (c : Z) : Loc := {| line := 1; column := c |}.

(** The tokens of [fn add(a, b) { var x = a + b; }]; [at_ i] is the
    location of the token number [i]. *)
Definition fn_add_tokens (at_ : nat → Loc) : list Token.t := [
  TOKEN TokenKind.Fn (at_ 0%nat);
  identifier "add" (at_ 1%nat);
  TOKEN TokenKind.OpenParen (at_ 2%nat);
  identifier "a" (at_ 3%nat);
  TOKEN TokenKind.Comma (at_ 4%nat);
  identifier "b" (at_ 5%nat);
  TOKEN TokenKind.CloseParen (at_ 6%nat);
  TOKEN TokenKind.OpenBrace (at_ 7%nat);
  TOKEN TokenKind.Var (at_ 8%nat);
  identifier "x" (at_ 9%nat);
  TOKEN TokenKind.Eq (at_ 10%nat);
  identifier "a" (at_ 11%nat);
  TOKEN TokenKind.Plus (at_ 12%nat);
  identifier "b" (at_ 13%nat);
  TOKEN TokenKind.SemiColon (at_ 14%nat);
  TOKEN TokenKind.CloseBrace (at_ 15%nat)
].

(** The tokens of [fn add(a, b) { }]. *)
Definition fn_add_empty_tokens (at_ : nat → Loc) : list Token.t := [
  TOKEN TokenKind.Fn (at_ 0%nat);
  identifier "add" (at_ 1%nat);
  TOKEN TokenKind.OpenParen (at_ 2%nat);
  identifier "a" (at_ 3%nat);
  TOKEN TokenKind.Comma (at_ 4%nat);
  identifier "b" (at_ 5%nat);
  TOKEN TokenKind.CloseParen (at_ 6%nat);
  TOKEN TokenKind.OpenBrace (at_ 7%nat);
  TOKEN TokenKind.CloseBrace (at_ 8%nat)
].

(** The tokens of [var x = a + b;]. *)
Definition var_x_tokens (at_ : nat → Loc) : list Token.t := [
  TOKEN TokenKind.Var (at_ 0%nat);
  identifier "x" (at_ 1%nat);
  TOKEN TokenKind.Eq (at_ 2%nat);
  identifier "a" (at_ 3%nat);
  TOKEN TokenKind.Plus (at_ 4%nat);
  identifier "b" (at_ 5%nat);
  TOKEN TokenKind.SemiColon (at_ 6%nat)
].

(** The tokens of [var x = ;]. *)
Definition var_without_initializer_tokens (at_ : nat → Loc) : list Token.t := [
  TOKEN TokenKind.Var (at_ 0%nat);
  identifier "x" (at_ 1%nat);
  TOKEN TokenKind.Eq (at_ 2%nat);
  TOKEN TokenKind.SemiColon (at_ 3%nat)
].

(** The tokens of [fn (]. *)
Definition fn_without_name_tokens (at_ : nat → Loc) : list Token.t := [
  TOKEN TokenKind.Fn (at_ 0%nat);
  TOKEN TokenKind.OpenParen (at_ 1%nat)
].

(** ** Vocabulary of the further properties *)

(** The stream over [pre ++ post] with the cursor on the first token of
    [post]. *)
Definition cursor (pre post : list Token.t) : TokenStream.t :=
  {| TokenStream.source := pre ++ post;
     TokenStream.index := List.length pre;
     TokenStream._token :=
       match post with
       | tok :: _ => tok
       | [] => EndOfStream
       end |}.

(** What [parse] can put into a [Unit]: a variable declaration, or a
    function declaration whose body is empty. *)
Definition topLevelDecl (d : Node) : bool :=
  match d with
  | VariableDecl _ _ _ => true
  | FunctionDecl _ _ [] _ => true
  | _ => false
  end.

(** The tokens from the cursor to the end. *)
Definition remaining (s : TokenStream.t) : nat :=
  (List.length (TokenStream.source s) - TokenStream.index s)%nat.

(** [s'] is a later state of the stream [s]: the same tokens, the cursor
    not moved back. *)
Definition frame (s s' : TokenStream.t) : Prop :=
  TokenStream.source s' = TokenStream.source s ∧
  (TokenStream.index s ≤ TokenStream.index s')%nat.

(** A run from [s] that came to an end, by a return that satisfies [Q] or
    by a throw, in a later state of the same stream. *)
Definition safe {A : Type} (s : TokenStream.t)
  (Q : A → TokenStream.t → Prop) (o : Outcome TokenStream.t A) : Prop :=
  match o with
  | Return a s' => frame s s' ∧ Q a s'
  | Throw _ s' => frame s s'
  | OutOfFuel => False
  end.

(** The cursor was before the end and has moved forward. *)
Definition progress {A : Type} (s : TokenStream.t) : A → TokenStream.t → Prop :=
  λ _ s',
    (TokenStream.index s < List.length (TokenStream.source s))%nat ∧
    (TokenStream.index s < TokenStream.index s')%nat.

(** The loop of [parsePratt] run with [minBp] leaves on a token that has
    no infix entry, or one whose left binding power is below [minBp], and
    at the end of the stream. *)
Definition stops (minBp : nat) (post : list Token.t) : bool :=
  match post with
  | [] => true
  | tok :: _ =>
      match find (isInfixFor (Token.kind tok)) operators with
      | None => true
      | Some info => bool_decide (InfixInfo.lbp info < minBp)%nat
      end
  end.

(** What follows an expression: the end of the stream or a token that is
    no infix operator. *)
Definition endsExpr (post : list Token.t) : bool :=
  match post with
  | [] => true
  | tok :: _ =>
      match find (isInfixFor (Token.kind tok)) operators with
      | None => true
      | Some _ => false
      end
  end.

(** One more operator and operand of a chain [a op1 b op2 c ...]: the
    table entry of the operator, the location of its token, and the
    operand token. *)
Definition Link : Type := InfixInfo.t * Loc * Token.t.

Definition linkOp (k : Link) : InfixInfo.t := k.1.1.

Definition linkTokens (k : Link) : list Token.t :=
  [infixToken k.1.1 k.1.2; k.2].

Definition chainTokens (rest : list Link) : list Token.t :=
  flat_map linkTokens rest.

(** The operator is in the table and the operand is a single token. *)
Definition linkOk (k : Link) : Prop :=
  Infix (linkOp k) ∈ operators ∧ operand k.2 = true.

(** [Binary(op, left, operand)], located at the operator. *)
Definition linkNode (left : Node) (k : Link) : Node :=
  Binary (binaryMode (InfixInfo.token (linkOp k))) left (leaf k.2) k.1.2.

(** [((a op1 b) op2 c) ...]. *)
Definition leftFold (left : Node) (rest : list Link) : Node :=
  foldl linkNode left rest.

(** [a op1 (b op2 (c ...))]. *)
Fixpoint rightNest (a : Token.t) (rest : list Link) : Node :=
  match rest with
  | [] => leaf a
  | k :: rest' =>
      Binary (binaryMode (InfixInfo.token (linkOp k)))
        (leaf a) (rightNest k.2 rest') k.1.2
  end.

(** The left binding powers never go up along the chain. *)
Fixpoint descending (rest : list Link) : Prop :=
  match rest with
  | k1 :: (k2 :: _) as rest' =>
      (InfixInfo.lbp (linkOp k2) ≤ InfixInfo.lbp (linkOp k1))%nat ∧
      descending rest'
  | _ => True
  end.

(** The left binding powers go up at every step of the chain. *)
Fixpoint ascending (rest : list Link) : Prop :=
  match rest with
  | k1 :: (k2 :: _) as rest' =>
      (InfixInfo.lbp (linkOp k1) < InfixInfo.lbp (linkOp k2))%nat ∧
      ascending rest'
  | _ => True
  end.

(** A run of prefix operators, each with the location of its token. *)
Definition prefixTokens (us : list (PrefixInfo.t * Loc)) : list Token.t :=
  map (λ u, prefixToken u.1 u.2) us.

(** [Unary(u1, Unary(u2, ... a))]. *)
Definition unaryNest (us : list (PrefixInfo.t * Loc)) (a : Token.t) : Node :=
  foldr (λ u e, Unary (unaryMode (PrefixInfo.token u.1)) e u.2) (leaf a) us.

(** A parameter after the first: the location of the comma before it and
    the identifier token. *)
Definition moreParams (rest : list (Loc * Token.t)) : list Token.t :=
  flat_map (λ p, [TOKEN TokenKind.Comma p.1; p.2]) rest.

(** The tokens between the parentheses of a parameter list; the comma of
    the first item is dropped. *)
Definition paramTokens (items : list (Loc * Token.t)) : list Token.t :=
  drop 1 (moreParams items).

Definition paramNames (items : list (Loc * Token.t)) : list (option string) :=
  map (λ p, Token.value p.2) items.

Definition isIdentifier (p : Loc * Token.t) : Prop :=
  Token.kind p.2 = TokenKind.Identifier.

(** A top-level declaration as written: [var name;], [var name = v;] with
    a one-token initializer, or [fn name(params) { }].  The locations are
    those of the keyword and punctuation tokens. *)
Inductive TopDecl : Type :=
| DeclVar (varLoc : Loc) (name : Token.t) (init : option (Loc * Token.t))
    (semi : Loc)
| DeclFn (fnLoc : Loc) (name : Token.t) (open : Loc)
    (params : list (Loc * Token.t)) (close lbrace rbrace : Loc).

Definition declTokens (d : TopDecl) : list Token.t :=
  match d with
  | DeclVar varLoc name init semi =>
      TOKEN TokenKind.Var varLoc :: name ::
      match init with
      | Some (eqLoc, v) => [TOKEN TokenKind.Eq eqLoc; v]
      | None => []
      end ++ [TOKEN TokenKind.SemiColon semi]
  | DeclFn fnLoc name open params close lbrace rbrace =>
      TOKEN TokenKind.Fn fnLoc :: name :: TOKEN TokenKind.OpenParen open ::
      paramTokens params ++
      [TOKEN TokenKind.CloseParen close; TOKEN TokenKind.OpenBrace lbrace;
       TOKEN TokenKind.CloseBrace rbrace]
  end.

(** The node the declaration stands for. *)
Definition declNode (d : TopDecl) : Node :=
  match d with
  | DeclVar varLoc name init _ =>
      VariableDecl (Token.value name)
        (match init with
         | Some (_, v) => Some (leaf v)
         | None => None
         end)
        varLoc
  | DeclFn fnLoc name _ params _ _ _ =>
      FunctionDecl (Token.value name) (paramNames params) [] fnLoc
  end.

Definition declOk (d : TopDecl) : Prop :=
  match d with
  | DeclVar _ name init _ =>
      Token.kind name = TokenKind.Identifier ∧
      match init with
      | Some (_, v) => operand v = true
      | None => True
      end
  | DeclFn _ name _ params _ _ _ =>
      Token.kind name = TokenKind.Identifier ∧ Forall isIdentifier params
  end.

(** Fuel that is enough for the declaration. *)
Definition declFuel (d : TopDecl) : nat :=
  match d with
  | DeclVar _ _ _ _ => 2
  | DeclFn _ _ _ params _ _ _ => S (List.length params)
  end.

Definition programTokens (ds : list TopDecl) : list Token.t :=
  flat_map declTokens ds.

(** The kinds an expression can start with: the prefix operators of the
    table and the cases of the [switch] in [parseAtom]. *)
Definition startsExpr (k : TokenKind.t) : bool :=
  match k with
  | TokenKind.Not | TokenKind.Plus | TokenKind.Minus
  | TokenKind.NumberLiteral | TokenKind.Identifier
  | TokenKind.If | TokenKind.OpenParen => true
  | _ => false
  end.

(** The kind under the cursor when [post] is what is left. *)
Definition headKind (post : list Token.t) : TokenKind.t :=
  match post with
  | tok :: _ => Token.kind tok
  | [] => TokenKind.EOF
  end.

(** Sample tokens and table entries. *)
Definition tok_a : Token.t := identifier "a" (col 1).
Definition tok_b : Token.t := identifier "b" (col 3).
Definition tok_c : Token.t := identifier "c" (col 5).
Definition tok_d : Token.t := identifier "d" (col 7).
Definition op_mul : InfixInfo.t := InfixInfo.mk InfixToken.Asterisk 70 71.
Definition op_add : InfixInfo.t := InfixInfo.mk InfixToken.Plus 60 61.
Definition op_sub : InfixInfo.t := InfixInfo.mk InfixToken.Minus 60 61.
Definition op_lt : InfixInfo.t := InfixInfo.mk InfixToken.Lt 50 51.
Definition op_or : InfixInfo.t := InfixInfo.mk InfixToken.Or2 20 21.
Definition op_not : PrefixInfo.t := PrefixInfo.mk PrefixToken.Not 80.
Definition op_neg : PrefixInfo.t := PrefixInfo.mk PrefixToken.Minus 80.

(** [* b + c - d], [|| b < c * d] and [< b], to follow [a]. *)
Definition chain_down : list Link :=
  [(op_mul, col 2, tok_b); (op_add, col 4, tok_c); (op_sub, col 6, tok_d)].
Definition chain_up : list Link :=
  [(op_or, col 2, tok_b); (op_lt, col 4, tok_c); (op_mul, col 6, tok_d)].
Definition chain_lt : list Link := [(op_lt, col 2, tok_b)].

(** [! -], to precede an operand. *)
Definition prefixes : list (PrefixInfo.t * Loc) :=
  [(op_not, col 8); (op_neg, col 9)].

(** [a, b, a]: names may repeat. *)
Definition params_aba : list (Loc * Token.t) :=
  [(col 0, tok_a); (col 2, tok_b); (col 4, tok_a)].

(** [var a; var b = c; fn d(a, b, a) { }]. *)
Definition program : list TopDecl :=
  [DeclVar (col 10) tok_a None (col 11);
   DeclVar (col 12) tok_b (Some (col 13, tok_c)) (col 14);
   DeclFn (col 15) tok_d (col 16) params_aba (col 17) (col 18) (col 19)].

(** Keywords and punctuation for the sample statements. *)
Definition kw (k : TokenKind.t) (c : Z) : Token.t := TOKEN k (col c).

(** * Properties of the token stream *)

Section TokenStreamFacts.

Import TokenStream.

Implicit Types (s : TokenStream.t) (src : list Token.t) (cs : list Call).

Lemma eof_true s : eof s = true ↔ (List.length (source s) ≤ index s)%nat.
Proof. unfold eof. apply bool_decide_eq_true. Qed.

Lemma eof_false s : eof s = false ↔ (index s < List.length (source s))%nat.
Proof. unfold eof. rewrite bool_decide_eq_false. lia. Qed.

Lemma loaded_new src : loaded (new src).
Proof.
  unfold loaded, new, load. 
  destruct (eof _) eqn:E; simpl; unfold eof in *; simpl in *; rewrite E; reflexivity.
Qed.

Lemma next_eq s :
  TokenStream.next s =
    Return ()
      (if eof s then set__token EndOfStream s
       else
         let s1 := set_index (S (index s)) s in
         if eof s1 then set__token EndOfStream s1
         else set__token (default EndOfStream (source s !! S (index s))) s1).
Proof.
  unfold TokenStream.next, load.
  destruct (eof s) eqn:E; simpl.
  - rewrite E. reflexivity.
  - destruct (eof (set_index _ _)); reflexivity.
Qed.


Lemma getToken_eq s :
  TokenStream.getToken s =
    Return (if eof s then EndOfStream else _token s) s.
Proof. unfold TokenStream.getToken. destruct (eof s); reflexivity. Qed.

Lemma getKind_eq s :
  TokenStream.getKind s =
    Return (Token.kind (if eof s then EndOfStream else _token s)) s.
Proof.
  unfold TokenStream.getKind, mbind, M_bind. rewrite getToken_eq. reflexivity.
Qed.

Lemma expect_eq s kind :
  TokenStream.expect kind s =
    let tok := if eof s then EndOfStream else _token s in
    if bool_decide (Token.kind tok ≠ kind) then
      Throw (error ("unexpected token: " +:+ TokenKind.name (Token.kind tok))
               (Token.loc tok)) s
    else Return () s.
Proof.
  unfold TokenStream.expect, mbind, M_bind. rewrite getKind_eq. simpl.
  case_bool_decide; [|reflexivity].
  rewrite getKind_eq, getToken_eq. reflexivity.
Qed.

Lemma nextWith_eq s kind :
  TokenStream.nextWith kind s =
    match TokenStream.expect kind s with
    | Return _ s' => TokenStream.next s'
    | Throw e s' => Throw e s'
    | OutOfFuel => OutOfFuel
    end.
Proof. reflexivity. Qed.

Lemma lookahead_state offset s :
  stateAfter (TokenStream.lookahead offset s) s = s.
Proof. unfold TokenStream.lookahead. case_bool_decide; reflexivity. Qed.

(** Every method leaves [source] alone, never moves the cursor back,
    keeps it within the sequence, and keeps [_token] loaded. *)
Lemma next_frame s s' :
  TokenStream.next s = Return () s' →
  source s' = source s ∧
  (index s ≤ index s')%nat ∧
  ((index s ≤ List.length (source s))%nat →
   (index s' ≤ List.length (source s))%nat) ∧
  loaded s'.
Proof.
  rewrite next_eq. intros [= <-].
  destruct (eof s) eqn:E; simpl.
  - unfold loaded. simpl. 
    replace (eof (set__token EndOfStream s)) with (eof s) by reflexivity.
    rewrite E. auto with lia.
  - apply eof_false in E.
    destruct (eof (set_index _ _)) eqn:E'; unfold loaded; simpl;
      match goal with
      | |- context [eof ?x] =>
          replace (eof x) with (eof (set_index (S (index s)) s)) by reflexivity
      end; rewrite E'; auto with lia.
Qed.

Lemma call_frame c s :
  source (call c s) = source s ∧
  (index s ≤ index (call c s))%nat ∧
  ((index s ≤ List.length (source s))%nat →
   (index (call c s) ≤ List.length (source s))%nat) ∧
  (loaded s → loaded (call c s)).
Proof.
  destruct c; simpl.
  - rewrite getToken_eq. simpl. auto.
  - rewrite getKind_eq. simpl. auto.
  - pose proof (next_eq s) as E.
    destruct (next_frame s _ E) as (? & ? & ? & ?).
    rewrite E. simpl. auto.
  - rewrite lookahead_state. auto.
  - rewrite expect_eq. simpl. case_bool_decide; simpl; auto.
  - rewrite nextWith_eq, expect_eq. simpl. case_bool_decide; simpl; auto.
    pose proof (next_eq s) as E.
    destruct (next_frame s _ E) as (? & ? & ? & ?).
    rewrite E. simpl. auto.
Qed.

Lemma calls_frame cs s :
  source (calls cs s) = source s ∧
  (index s ≤ index (calls cs s))%nat ∧
  ((index s ≤ List.length (source s))%nat →
   (index (calls cs s) ≤ List.length (source s))%nat) ∧
  (loaded s → loaded (calls cs s)).
Proof.
  revert s. induction cs as [|c cs IH]; intros s; simpl.
  - auto.
  - destruct (call_frame c s) as (Hs & Hi & Hb & Hl).
    destruct (IH (call c s)) as (Hs' & Hi' & Hb' & Hl').
    rewrite Hs in *. repeat split; eauto with lia.
Qed.

Lemma reachable_frame src cs :
  source (calls cs (new src)) = src ∧
  (index (calls cs (new src)) ≤ List.length src)%nat ∧
  loaded (calls cs (new src)).
Proof.
  destruct (calls_frame cs (new src)) as (Hs & _ & Hb & Hl).
  assert (source (new src) = src) as Hn.
  { unfold new, load. destruct (eof _); reflexivity. }
  assert (index (new src) = 0%nat) as Hi.
  { unfold new, load. destruct (eof _); reflexivity. }
  rewrite Hn, Hi in *. repeat split; auto using loaded_new with lia.
Qed.


(** Claim C7.  [lookahead(k)] returns with the whole object, cursor
    included, as it was; asking twice for the same offset gives the same
    token twice; the token is the element [k] places after the cursor
    when there is one, and the end-of-stream sentinel, not a failure,
    when [cursor + k] is at or past the end. *)
Theorem lookahead_leaves_stream_alone s (k : nat) :
  ∃ tok,
    TokenStream.lookahead k s = Return tok s ∧
    (t1 ← TokenStream.lookahead k;
     t2 ← TokenStream.lookahead k;
     mret (t1, t2)) s = Return (tok, tok) s ∧
    (((index s + k < List.length (source s))%nat ∧
      source s !! (index s + k)%nat = Some tok) ∨
     ((List.length (source s) ≤ index s + k)%nat ∧
      tok = TOKEN TokenKind.EOF {| line := -1; column := -1 |})).
Proof.
  unfold mbind, M_bind, TokenStream.lookahead.
  destruct (decide (index s + k < List.length (source s))%nat) as [Hlt|Hge].
  - destruct (lookup_lt_is_Some_2 (source s) _ Hlt) as [tok Htok].
    exists tok. rewrite !bool_decide_eq_true_2, Htok by exact Hlt.
    simpl. auto.
  - exists EndOfStream. rewrite !bool_decide_eq_false_2 by exact Hge.
    repeat split. right. split; [lia | reflexivity].
Qed.

(** Claim C8, as amended.  When the current kind differs from the
    requested one, [nextWith] throws the syntax error for the current
    token and the object is untouched.  When it matches, [expect] returns
    without effect, [nextWith] is [next] run after it, and the cursor
    moves forward by one if it was before the end; at the end, where only
    [EOF] can match, it stays. *)
Theorem nextWith_checks_then_advances s (kind : TokenKind.t) :
  ∃ tok,
    TokenStream.getToken s = Return tok s ∧
    ((Token.kind tok ≠ kind ∧
      TokenStream.nextWith kind s =
        Throw (error ("unexpected token: " +:+ TokenKind.name (Token.kind tok))
                 (Token.loc tok)) s) ∨
     (Token.kind tok = kind ∧
      TokenStream.expect kind s = Return () s ∧
      TokenStream.nextWith kind s = TokenStream.next s ∧
      ∃ s',
        TokenStream.nextWith kind s = Return () s' ∧
        source s' = source s ∧
        (((index s < List.length (source s))%nat ∧
          index s' = (index s + 1)%nat) ∨
         ((List.length (source s) ≤ index s)%nat ∧
          kind = TokenKind.EOF ∧ index s' = index s)))).
Proof.
  eexists. split; [apply getToken_eq|].
  rewrite nextWith_eq, expect_eq. simpl.
  case_bool_decide as Hk; [left; auto|].
  right.
  repeat split; [exact Hk|].
  rewrite next_eq. eexists. split; [reflexivity|].
  destruct (eof s) eqn:E.
  - apply eof_true in E. simpl in *. auto.
  - apply eof_false in E. simpl. split.
    + destruct (eof (set_index (S (index s)) s)); reflexivity.
    + left. split; [exact E|].
      destruct (eof (set_index (S (index s)) s)); simpl; lia.
Qed.

(** Counterexample to claim C8 as stated: on the empty stream the
    current kind is [EOF], so [nextWith(EOF)] matches, and yet the cursor
    is not moved forward by one. *)
Lemma nextWith_EOF_at_end_does_not_move :
  TokenStream.getKind (new []) = Return TokenKind.EOF (new []) ∧
  ¬ ∃ s',
      TokenStream.nextWith TokenKind.EOF (new []) = Return () s' ∧
      index s' = (index (new []) + 1)%nat.
Proof.
  split; [reflexivity|].
  intros (s' & Hrun & Hidx).
  vm_compute in Hrun. injection Hrun as <-. discriminate Hidx.
Qed.

(** Claim C9.  In every state a sequence of method calls can lead to,
    [next] returns normally; before the end it moves the cursor by
    exactly one, at the end it changes nothing.  The cursor of such a
    state lies between 0 and the length of the sequence, and no further
    calls ever move it back. *)
Theorem next_moves_by_one_or_stays src cs cs' :
  let s := calls cs (new src) in
  (∃ s',
     TokenStream.next s = Return () s' ∧
     (((index s < List.length (source s))%nat ∧
       index s' = (index s + 1)%nat) ∨
      ((List.length (source s) ≤ index s)%nat ∧ s' = s))) ∧
  source s = src ∧
  (0 ≤ index s ≤ List.length src)%nat ∧
  (index s ≤ index (calls cs' s))%nat.
Proof.
  intros s.
  destruct (reachable_frame src cs) as (Hsrc & Hidx & Hload).
  fold s in Hsrc, Hidx, Hload.
  repeat split; [|exact Hsrc|lia|exact Hidx|apply calls_frame].
  rewrite next_eq. eexists. split; [reflexivity|].
  destruct (eof s) eqn:E.
  - right. split; [apply eof_true, E|].
    unfold loaded in Hload. rewrite E in Hload.
    rewrite <- Hload. destruct s; reflexivity.
  - left. split; [apply eof_false, E|]. simpl.
    destruct (eof (set_index (S (index s)) s)); simpl; lia.
Qed.

(** Claim C10.  In every state a sequence of method calls can lead to,
    [getToken()] and [lookahead(0)] return the same token and leave the
    object as it was: the element under the cursor when the cursor is
    before the end, and otherwise the [EOF] token located at
    [{ line: -1, column: -1 }]. *)
Theorem getToken_agrees_with_lookahead_0 src cs :
  let s := calls cs (new src) in
  ∃ tok,
    TokenStream.getToken s = Return tok s ∧
    TokenStream.lookahead 0 s = Return tok s ∧
    (((index s < List.length (source s))%nat ∧
      source s !! index s = Some tok) ∨
     ((List.length (source s) ≤ index s)%nat ∧
      tok = TOKEN TokenKind.EOF {| line := -1; column := -1 |})).
Proof.
  intros s.
  destruct (reachable_frame src cs) as (_ & _ & Hload).
  fold s in Hload. unfold loaded in Hload.
  rewrite getToken_eq. unfold TokenStream.lookahead.
  rewrite Nat.add_0_r.
  destruct (eof s) eqn:E.
  - apply eof_true in E.
    rewrite bool_decide_eq_false_2 by lia.
    exists EndOfStream. repeat split. right. auto.
  - apply eof_false in E.
    rewrite bool_decide_eq_true_2 by lia.
    destruct (lookup_lt_is_Some_2 (source s) _ E) as [tok Htok].
    exists tok. rewrite Hload, Htok. simpl. auto.
Qed.

End TokenStreamFacts.

(** * Properties of the parser *)

Section ParserFacts.

Ltac table_entry H :=
  apply list_elem_of_In in H; simpl in H;
  repeat (destruct H as [H | H]; [try discriminate H; injection H as <- |]);
  [.. | destruct H].

Ltac operand_token a H :=
  destruct a as [[] ? ?]; try discriminate H; clear H.

(** Every infix token has exactly one entry in the table, and the
    linear scan finds it. *)
Lemma find_infix (tok : InfixToken.t) :
  ∃ info,
    find (isInfixFor (InfixToken.kind tok)) operators = Some info ∧
    InfixInfo.token info = tok ∧
    Infix info ∈ operators.
Proof.
  destruct tok; eexists; (split; [reflexivity|]); split;
    try reflexivity; repeat constructor.
Qed.

(** The tiers of the table, by category. *)
Lemma infix_tiers (info : InfixInfo.t) :
  Infix info ∈ operators →
  (InfixInfo.lbp info, InfixInfo.rbp info) =
    match InfixInfo.token info with
    | InfixToken.Asterisk | InfixToken.Slash | InfixToken.Percent => (70, 71)
    | InfixToken.Plus | InfixToken.Minus => (60, 61)
    | InfixToken.Lt | InfixToken.Lte | InfixToken.Gt | InfixToken.Gte =>
        (50, 51)
    | InfixToken.Eq2 | InfixToken.NotEq => (40, 41)
    | InfixToken.And2 => (30, 31)
    | InfixToken.Or2 => (20, 21)
    end%nat.
Proof. intros H. table_entry H; reflexivity. Qed.

(** Claim C1.  Take two infix entries of the operator table, [op1] of a
    strictly higher binding-power tier than [op2], and three one-token
    operands.  Parsing [a op1 b op2 c] gives
    [Binary(op2, Binary(op1, a, b), c)] and parsing [a op2 b op1 c] gives
    [Binary(op2, a, Binary(op1, b, c))]; both runs consume all five
    tokens, whatever fuel is left over. *)
Theorem higher_tier_groups_first
  (op1 op2 : InfixInfo.t) (a b c : Token.t) (l1 l2 : Loc) (n : nat) :
  Infix op1 ∈ operators →
  Infix op2 ∈ operators →
  (InfixInfo.lbp op2 < InfixInfo.lbp op1)%nat →
  operand a = true → operand b = true → operand c = true →
  parseExpr (4 + n)
    (TokenStream.new [a; infixToken op1 l1; b; infixToken op2 l2; c])
  = Return
      (Binary (binaryMode (InfixInfo.token op2))
         (Binary (binaryMode (InfixInfo.token op1)) (leaf a) (leaf b) l1)
         (leaf c) l2)
      (consumed [a; infixToken op1 l1; b; infixToken op2 l2; c]) ∧
  parseExpr (4 + n)
    (TokenStream.new [a; infixToken op2 l2; b; infixToken op1 l1; c])
  = Return
      (Binary (binaryMode (InfixInfo.token op2))
         (leaf a)
         (Binary (binaryMode (InfixInfo.token op1)) (leaf b) (leaf c) l1)
         l2)
      (consumed [a; infixToken op2 l2; b; infixToken op1 l1; c]).
Proof.
  intros H1 H2 Hlt Ha Hb Hc.
  operand_token a Ha; operand_token b Hb; operand_token c Hc.
  all: table_entry H1; table_entry H2; simpl in Hlt; try lia.
  all: split; vm_compute; reflexivity.
Qed.

Lemma higher_tier_groups_first_witness :
  parseExpr 4
    (TokenStream.new
       [identifier "a" (col 1); TOKEN TokenKind.Asterisk (col 3);
        identifier "b" (col 5); TOKEN TokenKind.Plus (col 7);
        identifier "c" (col 9)])
  = Return
      (Binary BinaryMode.add
         (Binary BinaryMode.mul
            (Reference (Some "a") (col 1))
            (Reference (Some "b") (col 5))
            (col 3))
         (Reference (Some "c") (col 9))
         (col 7))
      (consumed
         [identifier "a" (col 1); TOKEN TokenKind.Asterisk (col 3);
          identifier "b" (col 5); TOKEN TokenKind.Plus (col 7);
          identifier "c" (col 9)]) ∧
  parseExpr 4
    (TokenStream.new
       [identifier "a" (col 1); TOKEN TokenKind.Plus (col 7);
        identifier "b" (col 5); TOKEN TokenKind.Asterisk (col 3);
        identifier "c" (col 9)])
  = Return
      (Binary BinaryMode.add
         (Reference (Some "a") (col 1))
         (Binary BinaryMode.mul
            (Reference (Some "b") (col 5))
            (Reference (Some "c") (col 9))
            (col 3))
         (col 7))
      (consumed
         [identifier "a" (col 1); TOKEN TokenKind.Plus (col 7);
          identifier "b" (col 5); TOKEN TokenKind.Asterisk (col 3);
          identifier "c" (col 9)]).
Proof.
  apply (higher_tier_groups_first
           (InfixInfo.mk InfixToken.Asterisk 70 71)
           (InfixInfo.mk InfixToken.Plus 60 61)
           (identifier "a" (col 1)) (identifier "b" (col 5))
           (identifier "c" (col 9)) (col 3) (col 7) 0).
  - repeat constructor.
  - repeat constructor.
  - simpl. lia.
  - reflexivity.
  - reflexivity.
  - reflexivity.
Defined.

(** Claim C2.  Every infix entry of the table has
    [rbp = lbp + 1], and parsing [a op b op c] gives
    [Binary(op, Binary(op, a, b), c)]; the run never returns a tree of the
    shape [Binary(op, a, Binary(op, b, c))]. *)
Theorem infix_operators_associate_left
  (op : InfixInfo.t) (a b c : Token.t) (l1 l2 : Loc) (n : nat) :
  Infix op ∈ operators →
  operand a = true → operand b = true → operand c = true →
  InfixInfo.rbp op = (InfixInfo.lbp op + 1)%nat ∧
  parseExpr (4 + n)
    (TokenStream.new [a; infixToken op l1; b; infixToken op l2; c])
  = Return
      (Binary (binaryMode (InfixInfo.token op))
         (Binary (binaryMode (InfixInfo.token op)) (leaf a) (leaf b) l1)
         (leaf c) l2)
      (consumed [a; infixToken op l1; b; infixToken op l2; c]) ∧
  ∀ l l' s',
    parseExpr (4 + n)
      (TokenStream.new [a; infixToken op l1; b; infixToken op l2; c])
    ≠ Return
        (Binary (binaryMode (InfixInfo.token op))
           (leaf a)
           (Binary (binaryMode (InfixInfo.token op)) (leaf b) (leaf c) l)
           l')
        s'.
Proof.
  intros Hop Ha Hb Hc.
  assert (parseExpr (4 + n)
            (TokenStream.new [a; infixToken op l1; b; infixToken op l2; c])
          = Return
              (Binary (binaryMode (InfixInfo.token op))
                 (Binary (binaryMode (InfixInfo.token op)) (leaf a) (leaf b) l1)
                 (leaf c) l2)
              (consumed [a; infixToken op l1; b; infixToken op l2; c])) as Hrun.
  { operand_token a Ha; operand_token b Hb; operand_token c Hc.
    all: table_entry Hop; vm_compute; reflexivity. }
  split; [|split; [exact Hrun|]].
  - table_entry Hop; reflexivity.
  - intros l l' s'. rewrite Hrun. intros [= Hleaf _].
    operand_token a Ha; discriminate Hleaf.
Qed.

Lemma infix_operators_associate_left_witness :
  (61 = 60 + 1)%nat ∧
  parseExpr 4
    (TokenStream.new
       [identifier "a" (col 1); TOKEN TokenKind.Minus (col 3);
        identifier "b" (col 5); TOKEN TokenKind.Minus (col 7);
        identifier "c" (col 9)])
  = Return
      (Binary BinaryMode.sub
         (Binary BinaryMode.sub
            (Reference (Some "a") (col 1))
            (Reference (Some "b") (col 5))
            (col 3))
         (Reference (Some "c") (col 9))
         (col 7))
      (consumed
         [identifier "a" (col 1); TOKEN TokenKind.Minus (col 3);
          identifier "b" (col 5); TOKEN TokenKind.Minus (col 7);
          identifier "c" (col 9)]) ∧
  ∀ l l' s',
    parseExpr 4
      (TokenStream.new
         [identifier "a" (col 1); TOKEN TokenKind.Minus (col 3);
          identifier "b" (col 5); TOKEN TokenKind.Minus (col 7);
          identifier "c" (col 9)])
    ≠ Return
        (Binary BinaryMode.sub
           (Reference (Some "a") (col 1))
           (Binary BinaryMode.sub
              (Reference (Some "b") (col 5))
              (Reference (Some "c") (col 9))
              l)
           l')
        s'.
Proof.
  apply (infix_operators_associate_left
           (InfixInfo.mk InfixToken.Minus 60 61)
           (identifier "a" (col 1)) (identifier "b" (col 5))
           (identifier "c" (col 9)) (col 3) (col 7) 0).
  - repeat constructor.
  - reflexivity.
  - reflexivity.
  - reflexivity.
Defined.

(** Claim C3.  The binding power of every prefix entry exceeds the left
    binding power of every infix entry, and parsing [u a op b] gives
    [Binary(op, Unary(u, a), b)]. *)
Theorem prefix_binds_tighter_than_infix
  (u : PrefixInfo.t) (op : InfixInfo.t) (a b : Token.t) (l0 l1 : Loc)
  (n : nat) :
  Prefix u ∈ operators →
  Infix op ∈ operators →
  operand a = true → operand b = true →
  (InfixInfo.lbp op < PrefixInfo.bp u)%nat ∧
  parseExpr (3 + n)
    (TokenStream.new [prefixToken u l0; a; infixToken op l1; b])
  = Return
      (Binary (binaryMode (InfixInfo.token op))
         (Unary (unaryMode (PrefixInfo.token u)) (leaf a) l0)
         (leaf b) l1)
      (consumed [prefixToken u l0; a; infixToken op l1; b]).
Proof.
  intros Hu Hop Ha Hb.
  operand_token a Ha; operand_token b Hb.
  all: table_entry Hu; table_entry Hop.
  all: split; [simpl; lia | vm_compute; reflexivity].
Qed.


Lemma prefix_binds_tighter_than_infix_witness :
  (70 < 80)%nat ∧
  parseExpr 3
    (TokenStream.new
       [TOKEN TokenKind.Minus (col 1); identifier "a" (col 2);
        TOKEN TokenKind.Asterisk (col 4); identifier "b" (col 6)])
  = Return
      (Binary BinaryMode.mul
         (Unary UnaryMode.minus
            (Reference (Some "a") (col 2))
            (col 1))
         (Reference (Some "b") (col 6))
         (col 4))
      (consumed
         [TOKEN TokenKind.Minus (col 1); identifier "a" (col 2);
          TOKEN TokenKind.Asterisk (col 4); identifier "b" (col 6)]).
Proof.
  apply (prefix_binds_tighter_than_infix
           (PrefixInfo.mk PrefixToken.Minus 80)
           (InfixInfo.mk InfixToken.Asterisk 70 71)
           (identifier "a" (col 2)) (identifier "b" (col 6))
           (col 1) (col 4) 0).
  - repeat constructor.
  - repeat constructor.
  - reflexivity.
  - reflexivity.
Defined.

(** When the cursor is on a token that is neither [EOF], [Fn] nor
    [Var], one turn of the loop of [parse] ends where it began, so no
    amount of fuel lets the loop return. *)
Lemma parse_loop_stuck {Stream : Type} `{!ITokenStream Stream}
  (s : Stream) (k : TokenKind.t) (fuel : nat) (decls : list Node) :
  getKind s = Return k s →
  k ≠ TokenKind.EOF → k ≠ TokenKind.Fn → k ≠ TokenKind.Var →
  parse_loop fuel decls s = OutOfFuel.
Proof.
  intros Hk Heof Hfn Hvar.
  induction fuel as [|fuel IH]; [reflexivity|].
  simpl. unfold mbind, M_bind. rewrite Hk.
  rewrite bool_decide_eq_true_2 by exact Heof.
  rewrite Hk. destruct k; try exact IH; congruence.
Qed.

(** Claim C4 fails on the code.  On the one-token input [;] the loop of
    [parse] never moves the cursor off the token: for every amount of
    fuel the run is still going when the fuel is gone, so [parse] neither
    returns a [Unit] nor throws. *)
Theorem parse_loops_on_stray_token (loc : Loc) (fuel : nat) :
  parse fuel (TokenStream.new [TOKEN TokenKind.SemiColon loc]) = OutOfFuel.
Proof.
  unfold parse, mbind, M_bind.
  rewrite (parse_loop_stuck _ TokenKind.SemiColon); done.
Qed.

(** Claim C5 fails on the code.  On [var x = ;] the failure that reaches
    the caller of [parse] is the plain [Error] thrown by [parseAtom], which
    carries a message and no location; on [fn (] it is the value built by
    [error(message, loc)] in [expect], which does carry the location of
    the offending token. *)
Theorem parseAtom_error_carries_no_location (at_ : nat → Loc) (n : nat) :
  (∃ s',
     parse (2 + n) (TokenStream.new (var_without_initializer_tokens at_))
     = Throw (Error "unexpected token: SemiColon") s' ∧
     TokenStream.index s' = 3%nat) ∧
  exceptionLoc (Error "unexpected token: SemiColon") = None ∧
  (∃ s',
     parse (1 + n) (TokenStream.new (fn_without_name_tokens at_))
     = Throw (error "unexpected token: OpenParen" (at_ 1%nat)) s' ∧
     TokenStream.index s' = 1%nat) ∧
  exceptionLoc (error "unexpected token: OpenParen" (at_ 1%nat))
  = Some (at_ 1%nat).
Proof.
  repeat split.
  - eexists. split; [vm_compute; reflexivity | reflexivity].
  - eexists. split; [vm_compute; reflexivity | reflexivity].
Qed.

(** The header of a function declaration and an empty body parse as the
    grammar says. *)
Lemma parse_fn_add_empty (at_ : nat → Loc) (n : nat) :
  parse (4 + n) (TokenStream.new (fn_add_empty_tokens at_))
  = Return
      (Unit
         [FunctionDecl (Some "add") [Some "a"; Some "b"] [] (at_ 0%nat)]
         {| line := 1; column := 1 |})
      (consumed (fn_add_empty_tokens at_)).
Proof. vm_compute. reflexivity. Qed.

(** At top level, where [parse] calls [parseVariableDecl] itself, the
    declaration [var x = a + b;] parses. *)
Lemma parse_var_x (at_ : nat → Loc) (n : nat) :
  parse (4 + n) (TokenStream.new (var_x_tokens at_))
  = Return
      (Unit
         [VariableDecl (Some "x")
            (Some
               (Binary BinaryMode.add
                  (Reference (Some "a") (at_ 3%nat))
                  (Reference (Some "b") (at_ 5%nat))
                  (at_ 4%nat)))
            (at_ 0%nat)]
         {| line := 1; column := 1 |})
      (consumed (var_x_tokens at_)).
Proof. vm_compute. reflexivity. Qed.

(** Claim C6 fails on the code.  Parsing
    [fn add(a, b) { var x = a + b; }] consumes the header and the opening
    brace, then [parseStep] throws [new Error('todo')] with the cursor on
    [var]: no [FunctionDecl] is returned. *)
Theorem parse_fn_add_throws_todo (at_ : nat → Loc) (n : nat) :
  parse (4 + n) (TokenStream.new (fn_add_tokens at_))
  = Throw (Error "todo")
      {| TokenStream.source := fn_add_tokens at_;
         TokenStream.index := 8;
         TokenStream._token := TOKEN TokenKind.Var (at_ 8%nat) |}.
Proof. vm_compute. reflexivity. Qed.

End ParserFacts.

(** * Further properties *)

(** ** The stream seen from the cursor *)

Section CursorFacts.

Implicit Types (pre post : list Token.t) (tok : Token.t).

Lemma eof_cursor_cons pre tok post :
  TokenStream.eof (cursor pre (tok :: post)) = false.
Proof.
  apply eof_false. unfold cursor; simpl. rewrite List.length_app. simpl. lia.
Qed.

Lemma eof_cursor_nil pre : TokenStream.eof (cursor pre []) = true.
Proof.
  apply eof_true. unfold cursor; simpl. rewrite List.length_app. simpl. lia.
Qed.

Lemma new_cursor post : TokenStream.new post = cursor [] post.
Proof. destruct post as [|tok post]; reflexivity. Qed.

Lemma consumed_cursor pre : consumed pre = cursor pre [].
Proof. unfold consumed, cursor. rewrite List.app_nil_r. reflexivity. Qed.

Lemma getToken_cursor_cons pre tok post :
  getToken (cursor pre (tok :: post)) = Return tok (cursor pre (tok :: post)).
Proof.
  change (TokenStream.getToken (cursor pre (tok :: post))
          = Return tok (cursor pre (tok :: post))).
  rewrite getToken_eq, eof_cursor_cons. reflexivity.
Qed.

Lemma getToken_cursor_nil pre :
  getToken (cursor pre []) = Return EndOfStream (cursor pre []).
Proof.
  change (TokenStream.getToken (cursor pre [])
          = Return EndOfStream (cursor pre [])).
  rewrite getToken_eq, eof_cursor_nil. reflexivity.
Qed.

Lemma getKind_cursor_cons pre tok post :
  getKind (cursor pre (tok :: post))
  = Return (Token.kind tok) (cursor pre (tok :: post)).
Proof.
  change (TokenStream.getKind (cursor pre (tok :: post))
          = Return (Token.kind tok) (cursor pre (tok :: post))).
  rewrite getKind_eq, eof_cursor_cons. reflexivity.
Qed.

Lemma getKind_cursor_nil pre :
  getKind (cursor pre []) = Return TokenKind.EOF (cursor pre []).
Proof.
  change (TokenStream.getKind (cursor pre [])
          = Return TokenKind.EOF (cursor pre [])).
  rewrite getKind_eq, eof_cursor_nil. reflexivity.
Qed.

Lemma next_cursor_cons pre tok post :
  next (cursor pre (tok :: post)) = Return () (cursor (pre ++ [tok]) post).
Proof.
  change (TokenStream.next (cursor pre (tok :: post))
          = Return () (cursor (pre ++ [tok]) post)).
  rewrite next_eq, eof_cursor_cons. cbv zeta.
  assert (TokenStream.set_index
            (S (TokenStream.index (cursor pre (tok :: post))))
            (cursor pre (tok :: post))
          = {| TokenStream.source := (pre ++ [tok]) ++ post;
               TokenStream.index := List.length (pre ++ [tok]);
               TokenStream._token := tok |}) as ->.
  { unfold TokenStream.set_index, cursor; simpl.
    rewrite <- List.app_assoc, List.length_app. simpl. f_equal. lia. }
  f_equal. destruct post as [|tok' post].
  - replace (TokenStream.eof _) with (TokenStream.eof (cursor (pre ++ [tok]) []))
      by reflexivity.
    rewrite eof_cursor_nil. reflexivity.
  - replace (TokenStream.eof _)
      with (TokenStream.eof (cursor (pre ++ [tok]) (tok' :: post)))
      by reflexivity.
    rewrite eof_cursor_cons. unfold TokenStream.set__token, cursor; simpl.
    f_equal. rewrite lookup_app_r by lia.
    replace (S (List.length pre) - List.length pre)%nat with 1%nat by lia.
    reflexivity.
Qed.

Lemma next_cursor_nil pre :
  next (cursor pre []) = Return () (cursor pre []).
Proof.
  change (TokenStream.next (cursor pre []) = Return () (cursor pre [])).
  rewrite next_eq, eof_cursor_nil. reflexivity.
Qed.

Lemma expect_cursor_cons kind pre tok post :
  expect kind (cursor pre (tok :: post)) =
    if bool_decide (Token.kind tok ≠ kind) then
      Throw (error ("unexpected token: " +:+ TokenKind.name (Token.kind tok))
               (Token.loc tok))
        (cursor pre (tok :: post))
    else Return () (cursor pre (tok :: post)).
Proof.
  change (expect kind (cursor pre (tok :: post)))
    with (TokenStream.expect kind (cursor pre (tok :: post))).
  rewrite expect_eq, eof_cursor_cons. reflexivity.
Qed.

Lemma expect_cursor_nil kind pre :
  expect kind (cursor pre []) =
    if bool_decide (TokenKind.EOF ≠ kind) then
      Throw (error "unexpected token: EOF" {| line := -1; column := -1 |})
        (cursor pre [])
    else Return () (cursor pre []).
Proof.
  change (expect kind (cursor pre []))
    with (TokenStream.expect kind (cursor pre [])).
  rewrite expect_eq, eof_cursor_nil. reflexivity.
Qed.

Lemma nextWith_cursor_cons kind pre tok post :
  nextWith kind (cursor pre (tok :: post)) =
    if bool_decide (Token.kind tok ≠ kind) then
      Throw (error ("unexpected token: " +:+ TokenKind.name (Token.kind tok))
               (Token.loc tok))
        (cursor pre (tok :: post))
    else Return () (cursor (pre ++ [tok]) post).
Proof.
  change (nextWith kind (cursor pre (tok :: post)))
    with ((expect kind ≫= λ _, next) (cursor pre (tok :: post))).
  unfold mbind, M_bind. rewrite expect_cursor_cons.
  case_bool_decide; [reflexivity|]. apply next_cursor_cons.
Qed.

Lemma nextWith_cursor_nil kind pre :
  nextWith kind (cursor pre []) =
    if bool_decide (TokenKind.EOF ≠ kind) then
      Throw (error "unexpected token: EOF" {| line := -1; column := -1 |})
        (cursor pre [])
    else Return () (cursor pre []).
Proof.
  change (nextWith kind (cursor pre []))
    with ((expect kind ≫= λ _, next) (cursor pre [])).
  unfold mbind, M_bind. rewrite expect_cursor_nil.
  case_bool_decide; [reflexivity|]. apply next_cursor_nil.
Qed.

End CursorFacts.

(** ** Advancing and looking ahead *)

Section StreamExtras.

Import TokenStream.

Implicit Types (s : TokenStream.t) (src : list Token.t) (cs : list Call).

Lemma calls_app cs cs' s : calls (cs ++ cs') s = calls cs' (calls cs s).
Proof. unfold calls. apply foldl_app. Qed.

Lemma next_index s :
  ∃ s',
    TokenStream.next s = Return () s' ∧
    source s' = source s ∧
    index s' = if eof s then index s else S (index s).
Proof.
  rewrite next_eq. eexists. split; [reflexivity|].
  destruct (eof s); [split; reflexivity|]. simpl.
  destruct (eof (set_index (S (index s)) s)); split; reflexivity.
Qed.

Lemma calls_next_index (k : nat) s :
  (index s ≤ List.length (source s))%nat →
  index (calls (replicate k CallNext) s)
  = (index s + k) `min` List.length (source s).
Proof.
  revert s. induction k as [|k IH]; intros s Hle; simpl.
  - lia.
  - destruct (next_index s) as (s' & E & Hsrc & Hidx).
    rewrite E. simpl.
    destruct (eof s) eqn:Heof.
    + apply eof_true in Heof. rewrite IH by (rewrite Hsrc, Hidx; lia). rewrite Hsrc, Hidx. lia.
    + apply eof_false in Heof. rewrite IH by (rewrite Hsrc, Hidx; lia). rewrite Hsrc, Hidx. lia.
Qed.

(** Property X1.  After [k] calls of [next] on a freshly constructed
    stream the cursor is at [min k length]: it saturates at the end.
    [getToken] then returns the token number [k] of the sequence, or the
    end-of-stream token when there is none. *)
Theorem next_k_times_reaches_kth_token src (k : nat) :
  let s := calls (replicate k CallNext) (new src) in
  index s = k `min` List.length src ∧
  TokenStream.getToken s = Return (default EndOfStream (src !! k)) s.
Proof.
  intros s.
  destruct (reachable_frame src (replicate k CallNext)) as (Hsrc & Hidx & Hload).
  fold s in Hsrc, Hidx, Hload.
  assert (index s = k `min` List.length src) as Hi.
  { unfold s. rewrite calls_next_index.
    - destruct (reachable_frame src []) as (Hs0 & Hi0 & _). simpl in *.
      rewrite Hs0. replace (index (new src)) with 0%nat by (destruct src; reflexivity).
      reflexivity.
    - replace (index (new src)) with 0%nat by (destruct src; reflexivity). lia. }
  split; [exact Hi|].
  rewrite getToken_eq. unfold loaded in Hload. rewrite Hload.
  destruct (eof s) eqn:E.
  - apply eof_true in E. rewrite Hsrc in E.
    rewrite lookup_ge_None_2 by lia. reflexivity.
  - apply eof_false in E. rewrite Hsrc in *.
    replace (index s) with k by lia. reflexivity.
Qed.

(** Property X2.  In every state the methods can lead to, [lookahead(k)]
    returns the token that [getToken] returns once [next] has been called
    [k] times. *)
Theorem lookahead_is_getToken_after_k_next src cs (k : nat) :
  let s := calls cs (new src) in
  let s' := calls (replicate k CallNext) s in
  ∃ tok,
    TokenStream.lookahead k s = Return tok s ∧
    TokenStream.getToken s' = Return tok s'.
Proof.
  intros s s'.
  destruct (reachable_frame src cs) as (Hsrc & Hidx & _). fold s in Hsrc, Hidx.
  destruct (reachable_frame src (cs ++ replicate k CallNext))
    as (Hsrc' & Hidx' & Hload').
  rewrite calls_app in Hsrc', Hidx', Hload'. fold s s' in Hsrc', Hidx', Hload'.
  assert (index s' = (index s + k) `min` List.length src) as Hi.
  { unfold s'. rewrite calls_next_index by (rewrite Hsrc; exact Hidx).
    rewrite Hsrc. reflexivity. }
  rewrite getToken_eq. unfold TokenStream.lookahead, loaded in *.
  rewrite Hload'. rewrite Hsrc, Hsrc'.
  destruct (eof s') eqn:E.
  - apply eof_true in E. rewrite Hsrc' in E.
    rewrite bool_decide_eq_false_2 by lia. eauto.
  - apply eof_false in E. rewrite Hsrc' in E.
    rewrite bool_decide_eq_true_2 by lia.
    replace (index s') with (index s + k)%nat by lia. eauto.
Qed.

End StreamExtras.

(** ** What a returned tree can be *)

Section MonadFacts.

Context {S A B : Type}.

Lemma bind_Return (m : M S A) (f : A → M S B) (s s' : S) (b : B) :
  (m ≫= f) s = Return b s' →
  ∃ a s1, m s = Return a s1 ∧ f a s1 = Return b s'.
Proof.
  unfold mbind, M_bind. destruct (m s) as [a s1| |]; [eauto|discriminate..].
Qed.


End MonadFacts.

Ltac inv_bind H :=
  let a := fresh "a" in
  let s1 := fresh "s" in
  let H1 := fresh H in
  apply bind_Return in H; destruct H as (a & s1 & H1 & H).

Ltac inv_ret H := cbv [mret M_ret] in H; injection H as <- _.

Section GenericParserFacts.

Context {Stream : Type} `{!ITokenStream Stream}.

Lemma parseBlock_loop_returns_nil (fuel : nat) (steps0 steps : list Node)
  (s s' : Stream) :
  parseBlock_loop fuel steps0 s = Return steps s' → steps = steps0.
Proof.
  destruct fuel as [|fuel]; [discriminate|]. simpl. intros H.
  inv_bind H. case_bool_decide.
  - apply bind_Return in H. destruct H as (? & ? & Hstep & _).
    discriminate Hstep.
  - inv_ret H. reflexivity.
Qed.

Lemma parseBlock_returns_nil (fuel : nat) (steps : list Node) (s s' : Stream) :
  parseBlock fuel s = Return steps s' → steps = [].
Proof.
  unfold parseBlock. intros H. inv_bind H. inv_bind H. inv_bind H.
  inv_ret H. eapply parseBlock_loop_returns_nil; eassumption.
Qed.

Lemma parseFunctionDecl_shape (fuel : nat) (d : Node) (s s' : Stream) :
  parseFunctionDecl fuel s = Return d s' → topLevelDecl d = true.
Proof.
  unfold parseFunctionDecl. intros H. do 7 inv_bind H.
  inv_ret H.
  match goal with
  | Hb : parseBlock _ _ = Return _ _ |- _ =>
      apply parseBlock_returns_nil in Hb; subst
  end.
  reflexivity.
Qed.

Lemma parseVariableDecl_shape (fuel : nat) (d : Node) (s s' : Stream) :
  parseVariableDecl fuel s = Return d s' → topLevelDecl d = true.
Proof.
  unfold parseVariableDecl. intros H. do 8 inv_bind H.
  inv_ret H. reflexivity.
Qed.

Lemma parse_loop_shape (fuel : nat) (decls0 decls : list Node) (s s' : Stream) :
  forallb topLevelDecl decls0 = true →
  parse_loop fuel decls0 s = Return decls s' →
  forallb topLevelDecl decls = true.
Proof.
  revert decls0 s. induction fuel as [|fuel IH]; intros decls0 s H0 H;
    [discriminate|].
  simpl in H. inv_bind H. case_bool_decide.
  - inv_bind H.
    assert (∀ d, topLevelDecl d = true →
                 forallb topLevelDecl (decls0 ++ [d]) = true) as Hpush.
    { intros d Hd. rewrite forallb_app, H0. simpl. rewrite Hd. reflexivity. }
    destruct a0; try (eapply IH; eassumption).
    + inv_bind H. eapply IH; [|eassumption].
      eapply Hpush, parseFunctionDecl_shape; eassumption.
    + inv_bind H. eapply IH; [|eassumption].
      eapply Hpush, parseVariableDecl_shape; eassumption.
  - inv_ret H. exact H0.
Qed.

(** Property X3.  Whatever stream implementation it runs on and whatever
    the input, a tree returned by [parse] is a [Unit] located at [{1, 1}]
    whose declarations are variable declarations and function declarations
    with empty bodies. *)
Theorem parse_returns_vars_and_empty_functions
  (fuel : nat) (node : Node) (s s' : Stream) :
  parse fuel s = Return node s' →
  ∃ decls,
    node = Unit decls {| line := 1; column := 1 |} ∧
    forallb topLevelDecl decls = true.
Proof.
  unfold parse. intros H. inv_bind H. inv_ret H.
  eexists. split; [reflexivity|].
  eapply parse_loop_shape; [|eassumption]. reflexivity.
Qed.

End GenericParserFacts.

(** ** Runs that come to an end *)

Section Safety.

Import TokenStream.

Implicit Types (s : TokenStream.t).

Lemma frame_refl s : frame s s.
Proof. split; [reflexivity | lia]. Qed.

Lemma frame_trans s1 s2 s3 : frame s1 s2 → frame s2 s3 → frame s1 s3.
Proof. intros [E1 L1] [E2 L2]. split; [congruence | lia]. Qed.

Lemma frame_remaining s s' : frame s s' → (remaining s' ≤ remaining s)%nat.
Proof. intros [E L]. unfold remaining. rewrite E. lia. Qed.

Lemma safe_bind {A B} s (m : M TokenStream.t A) (f : A → M TokenStream.t B)
  (Q1 : A → TokenStream.t → Prop) (Q : B → TokenStream.t → Prop) :
  safe s Q1 (m s) →
  (∀ a s1, frame s s1 → Q1 a s1 → safe s1 (λ b s2, frame s s2 → Q b s2) (f a s1)) →
  safe s Q ((m ≫= f) s).
Proof.
  unfold mbind, M_bind. destruct (m s) as [a s1|e s1|]; simpl; [|auto..].
  intros [F1 H1] Hf. specialize (Hf a s1 F1 H1).
  destruct (f a s1) as [b s2|e s2|]; simpl in *.
  - destruct Hf as [F2 H2]. pose proof (frame_trans _ _ _ F1 F2). auto.
  - eapply frame_trans; eassumption.
  - exact Hf.
Qed.

Lemma safe_weaken {A} s (Q Q' : A → TokenStream.t → Prop) o :
  safe s Q o → (∀ a s', frame s s' → Q a s' → Q' a s') → safe s Q' o.
Proof. destruct o; simpl; intuition. Qed.

Lemma safe_ret {A} s (Q : A → TokenStream.t → Prop) (a : A) :
  Q a s → safe s Q ((mret a : M TokenStream.t A) s).
Proof. intros H. split; [apply frame_refl | exact H]. Qed.

Lemma safe_throw {A} s (Q : A → TokenStream.t → Prop) e :
  safe s Q (throw e s).
Proof. apply frame_refl. Qed.

Lemma not_eof_kind s :
  Token.kind (if eof s then EndOfStream else _token s) ≠ TokenKind.EOF →
  (index s < List.length (source s))%nat.
Proof.
  destruct (eof s) eqn:E; [intros H; destruct H; reflexivity|].
  intros _. apply eof_false, E.
Qed.

Lemma safe_getToken s :
  safe s (λ _ s', s' = s) (getToken s).
Proof.
  change (safe s (λ _ s', s' = s) (TokenStream.getToken s)).
  rewrite getToken_eq. split; [apply frame_refl | reflexivity].
Qed.

Lemma safe_getKind s :
  safe s
    (λ k s', s' = s ∧
             (k ≠ TokenKind.EOF → (index s < List.length (source s))%nat))
    (getKind s).
Proof.
  change (getKind s) with (TokenStream.getKind s).
  rewrite getKind_eq. split; [apply frame_refl|].
  split; [reflexivity | apply not_eof_kind].
Qed.

Lemma safe_next s :
  safe s
    (λ _ s', (index s < List.length (source s))%nat → index s' = S (index s))
    (next s).
Proof.
  change (next s) with (TokenStream.next s).
  destruct (next_index s) as (s' & E & Hsrc & Hidx). rewrite E.
  split; [split|].
  - exact Hsrc.
  - rewrite Hidx. destruct (eof s); lia.
  - intros Hlt. apply eof_false in Hlt. rewrite Hidx, Hlt. reflexivity.
Qed.

Lemma safe_expect kind s :
  safe s
    (λ _ s', s' = s ∧
             (kind ≠ TokenKind.EOF → (index s < List.length (source s))%nat))
    (expect kind s).
Proof.
  change (expect kind s) with (TokenStream.expect kind s).
  rewrite expect_eq. simpl. case_bool_decide as Hk; simpl.
  - apply frame_refl.
  - split; [apply frame_refl|]. split; [reflexivity|].
    intros Hne. apply not_eof_kind. congruence.
Qed.

Lemma safe_nextWith kind s :
  safe s
    (λ _ s', kind ≠ TokenKind.EOF →
             (index s < List.length (source s))%nat ∧ index s' = S (index s))
    (nextWith kind s).
Proof.
  change (nextWith kind s) with ((expect kind ≫= λ _, next) s).
  eapply safe_bind; [apply safe_expect|].
  intros [] s1 _ [-> Hlt].
  eapply safe_weaken; [apply safe_next|].
  simpl. intros _ s2 _ Hn _ Hne. auto.
Qed.

End Safety.

Ltac safe_method :=
  first
    [ apply safe_getToken
    | apply safe_getKind
    | apply safe_nextWith
    | apply safe_expect
    | apply safe_next ].

Ltac arith :=
  unfold progress, remaining, frame in *;
  repeat match goal with
         | H : _ ∧ _ |- _ => destruct H
         end;
  repeat match goal with
         | H : TokenStream.source ?a = TokenStream.source ?b |- _ =>
             rewrite H in *; clear H
         end;
  intros;
  repeat match goal with
         | H : ?k ≠ TokenKind.EOF → _ |- _ =>
             let H' := fresh in
             assert (k ≠ TokenKind.EOF) as H' by congruence;
             specialize (H H'); clear H'
         end;
  repeat match goal with
         | H : _ ∧ _ |- _ => destruct H
         end;
  repeat match goal with
         | H : (?a < ?b)%nat → _ |- _ =>
             let H' := fresh in
             assert (a < b)%nat as H' by lia;
             specialize (H H'); clear H'
         end;
  try (repeat split; lia).

Section Termination.

Import TokenStream.

Implicit Types (s : TokenStream.t).

Lemma parseParams_loop_safe (fuel : nat) (items : list (option string)) s :
  (remaining s + 1 ≤ fuel)%nat →
  safe s (λ _ _, True) (parseParams_loop fuel items s).
Proof.
  revert items s. induction fuel as [|fuel IH]; intros items s Hfuel; [lia|].
  simpl.
  eapply safe_bind; [safe_method|]. intros k s1 F1 [-> Hk].
  case_bool_decide; [|apply safe_ret; auto].
  eapply safe_bind.
  { instantiate (1 := λ _ _, True).
    case_bool_decide; [|apply safe_ret; exact I].
    eapply safe_weaken; [safe_method|auto]. }
  intros [] s2 F2 _.
  eapply safe_bind; [safe_method|]. intros [] s3 F3 [-> He].
  eapply safe_bind; [safe_method|]. intros tok s4 F4 ->.
  eapply safe_bind; [safe_method|]. intros [] s5 F5 Hn.
  eapply safe_weaken; [apply IH|auto].
  arith.
Qed.


Lemma parseParams_safe (fuel : nat) s :
  (remaining s + 1 ≤ fuel)%nat →
  safe s (λ _ _, True) (parseParams fuel s).
Proof.
  intros Hfuel. unfold parseParams.
  eapply safe_bind; [safe_method|]. intros [] s1 F1 P1.
  eapply safe_bind; [apply parseParams_loop_safe; arith|]. intros items s2 F2 _.
  eapply safe_bind; [safe_method|]. intros [] s3 F3 P3.
  apply safe_ret. auto.
Qed.

Lemma parseBlock_safe (fuel : nat) s :
  (1 ≤ fuel)%nat →
  safe s (λ _ _, True) (parseBlock fuel s).
Proof.
  intros Hfuel. unfold parseBlock.
  eapply safe_bind; [safe_method|]. intros [] s1 F1 P1.
  eapply safe_bind.
  { instantiate (1 := λ _ _, True).
    destruct fuel as [|fuel]; [lia|]. simpl.
    eapply safe_bind; [safe_method|]. intros k s2 F2 [-> Hk].
    case_bool_decide; [|apply safe_ret; auto].
    eapply (safe_bind _ _ _ (λ _ _, False)); [apply safe_throw|]. intros ? ? ? []. }
  intros steps s2 F2 _.
  eapply safe_bind; [safe_method|]. intros [] s3 F3 P3.
  apply safe_ret. auto.
Qed.

Section KnotSafety.

Variable parsePratt_rec : nat → M TokenStream.t Node.
Variable fuel : nat.

Hypothesis parsePratt_rec_safe : ∀ minBp s,
  (remaining s + 2 ≤ fuel)%nat →
  safe s (progress s) (parsePratt_rec minBp s).

Lemma parseCond_safe s :
  (remaining s + 2 ≤ fuel)%nat →
  safe s (progress s) (parseCond_ parsePratt_rec s).
Proof.
  intros Hfuel. unfold parseCond_, parseExpr_.
  eapply safe_bind; [safe_method|]. intros [] s1 F1 P1.
  eapply safe_bind; [apply parsePratt_rec_safe; arith|]. intros e s2 F2 P2.
  eapply safe_bind; [safe_method|]. intros [] s3 F3 P3.
  apply safe_ret. arith.
Qed.

Lemma parseIf_safe s :
  (remaining s + 1 ≤ fuel)%nat →
  safe s (progress s) (parseIf_ parsePratt_rec fuel s).
Proof.
  intros Hfuel. unfold parseIf_.
  eapply safe_bind; [safe_method|]. intros tok s0 F0 ->.
  eapply safe_bind; [safe_method|]. intros [] s1 F1 P1.
  assert (index s < index s1)%nat as Hlt by arith.
  eapply safe_bind; [apply parseCond_safe; arith|]. intros cond s2 F2 P2.
  eapply safe_bind; [safe_method|]. intros tok' s2' F2' ->.
  eapply safe_bind; [apply parseBlock_safe; arith|]. intros steps s3 F3 _.
  eapply safe_bind; [safe_method|]. intros k s3' F3' [-> Hk].
  eapply safe_bind.
  { instantiate (1 := λ _ _, True).
    case_bool_decide; [|apply safe_ret; exact I].
    eapply safe_bind; [safe_method|]. intros tok'' s4 F4 ->.
    eapply safe_bind; [safe_method|]. intros [] s5 F5 P5.
    eapply safe_bind; [apply parseBlock_safe; arith|]. intros steps' s6 F6 _.
    apply safe_ret. auto. }
  intros elseBlock s4 F4 _.
  apply safe_ret. arith.
Qed.

Lemma parsePrefix_safe (info : PrefixInfo.t) s :
  (index s < List.length (source s))%nat →
  (remaining s + 1 ≤ fuel)%nat →
  safe s (progress s) (parsePrefix_ parsePratt_rec info s).
Proof.
  intros Hlt Hfuel. unfold parsePrefix_.
  eapply safe_bind; [safe_method|]. intros tok s0 F0 ->.
  eapply safe_bind; [safe_method|]. intros [] s1 F1 P1.
  eapply safe_bind; [apply parsePratt_rec_safe; arith|]. intros e s2 F2 P2.
  apply safe_ret. arith.
Qed.

Lemma parseInfix_safe (left : Node) (info : InfixInfo.t) s :
  (index s < List.length (source s))%nat →
  (remaining s + 1 ≤ fuel)%nat →
  safe s (progress s) (parseInfix_ parsePratt_rec left info s).
Proof.
  intros Hlt Hfuel. unfold parseInfix_.
  eapply safe_bind; [safe_method|]. intros tok s0 F0 ->.
  eapply safe_bind; [safe_method|]. intros [] s1 F1 P1.
  eapply safe_bind; [apply parsePratt_rec_safe; arith|]. intros e s2 F2 P2.
  apply safe_ret. arith.
Qed.

Lemma parseAtom_safe s :
  (remaining s + 1 ≤ fuel)%nat →
  safe s (progress s) (parseAtom_ parsePratt_rec fuel s).
Proof.
  intros Hfuel. unfold parseAtom_.
  eapply safe_bind; [safe_method|]. intros tok s0 F0 ->.
  eapply safe_bind; [safe_method|]. intros k s0 F0' [-> Hk].
  destruct k;
    try (eapply safe_bind; [safe_method|]; intros k' s1 F1 [-> Hk'];
         apply safe_throw).
  - (* NumberLiteral *)
    eapply safe_bind; [safe_method|]. intros tok' s1 F1 ->.
    eapply safe_bind; [safe_method|]. intros [] s2 F2 P2.
    apply safe_ret. arith.
  - (* Identifier *)
    eapply safe_bind; [safe_method|]. intros tok' s1 F1 ->.
    eapply safe_bind; [safe_method|]. intros [] s2 F2 P2.
    apply safe_ret. arith.
  - (* If *)
    eapply safe_weaken; [apply parseIf_safe; arith|auto].
  - (* OpenParen *)
    eapply safe_bind; [safe_method|]. intros [] s1 F1 P1.
    unfold parseExpr_.
    eapply safe_bind; [apply parsePratt_rec_safe; arith|]. intros e s2 F2 P2.
    eapply safe_bind; [safe_method|]. intros [] s3 F3 P3.
    apply safe_ret. arith.
Qed.


Lemma parsePratt_loop_safe (loopFuel minBp : nat) (left : Node) s :
  (remaining s + 1 ≤ loopFuel)%nat →
  (remaining s + 1 ≤ fuel)%nat →
  safe s (λ _ _, True) (parsePratt_loop parsePratt_rec loopFuel minBp left s).
Proof.
  revert left s. induction loopFuel as [|loopFuel IH];
    intros left s Hloop Hfuel; [lia|].
  cbn [parsePratt_loop].
  eapply safe_bind; [safe_method|]. intros k s0 F0 [-> Hk].
  destruct (find (isInfixFor k) operators) as [infix|] eqn:Hfind;
    [|apply safe_ret; auto].
  case_bool_decide; [apply safe_ret; auto|].
  assert (k ≠ TokenKind.EOF) as Hne.
  { intros ->. vm_compute in Hfind. discriminate Hfind. }
  eapply safe_bind; [apply parseInfix_safe; arith|]. intros left' s1 F1 P1.
  eapply safe_weaken; [apply IH; arith|auto].
Qed.

Lemma parsePratt_body_safe (minBp : nat) s :
  (remaining s + 1 ≤ fuel)%nat →
  safe s (progress s) (parsePratt_ parsePratt_rec fuel minBp s).
Proof.
  intros Hfuel. unfold parsePratt_.
  eapply safe_bind; [safe_method|]. intros k s0 F0 [-> Hk].
  eapply safe_bind.
  { instantiate (1 := progress s).
    destruct (find (isPrefixFor k) operators) as [prefix|] eqn:Hfind.
    - assert (k ≠ TokenKind.EOF) as Hne.
      { intros ->. vm_compute in Hfind. discriminate Hfind. }
      apply parsePrefix_safe; arith.
    - apply parseAtom_safe; arith. }
  intros left s1 F1 P1.
  eapply safe_weaken; [apply parsePratt_loop_safe; arith|].
  intros. arith.
Qed.

End KnotSafety.

Lemma parsePratt_safe (fuel minBp : nat) s :
  (remaining s + 2 ≤ fuel)%nat →
  safe s (progress s) (parsePratt fuel minBp s).
Proof.
  revert minBp s. induction fuel as [|fuel IH]; intros minBp s Hfuel; [lia|].
  simpl. apply parsePratt_body_safe; [|lia].
  intros minBp' s' Hfuel'. apply IH, Hfuel'.
Qed.

Lemma parseFunctionDecl_safe (fuel : nat) s :
  (remaining s + 2 ≤ fuel)%nat →
  safe s (progress s) (parseFunctionDecl fuel s).
Proof.
  intros Hfuel. unfold parseFunctionDecl.
  eapply safe_bind; [safe_method|]. intros tok s0 F0 ->.
  eapply safe_bind; [safe_method|]. intros [] s1 F1 P1.
  eapply safe_bind; [safe_method|]. intros [] s2 F2 [-> P2].
  eapply safe_bind; [safe_method|]. intros tok' s2 F2' ->.
  eapply safe_bind; [safe_method|]. intros [] s3 F3 P3.
  eapply safe_bind; [apply parseParams_safe; arith|]. intros params s4 F4 _.
  eapply safe_bind; [apply parseBlock_safe; arith|]. intros body s5 F5 _.
  apply safe_ret. arith.
Qed.

Lemma parseVariableDecl_safe (fuel : nat) s :
  (remaining s + 2 ≤ fuel)%nat →
  safe s (progress s) (parseVariableDecl fuel s).
Proof.
  intros Hfuel. unfold parseVariableDecl.
  eapply safe_bind; [safe_method|]. intros tok s0 F0 ->.
  eapply safe_bind; [safe_method|]. intros [] s1 F1 P1.
  eapply safe_bind; [safe_method|]. intros [] s2 F2 [-> P2].
  eapply safe_bind; [safe_method|]. intros tok' s2 F2' ->.
  eapply safe_bind; [safe_method|]. intros [] s3 F3 P3.
  eapply safe_bind; [safe_method|]. intros k s4 F4 [-> Hk].
  eapply safe_bind.
  { instantiate (1 := λ _ _, True).
    case_bool_decide; [|apply safe_ret; exact I].
    eapply safe_bind; [safe_method|]. intros [] s5 F5 P5.
    eapply safe_bind; [apply parsePratt_safe; arith|]. intros body s6 F6 P6.
    apply safe_ret. auto. }
  intros body s5 F5 _.
  eapply safe_bind; [safe_method|]. intros [] s6 F6 P6.
  apply safe_ret. arith.
Qed.

End Termination.

(** ** Termination *)

Section TerminationTheorems.

Implicit Types (s : TokenStream.t).

Lemma safe_cases {A} s (Q : A → TokenStream.t → Prop) o :
  safe s Q o →
  (∃ a s', o = Return a s' ∧ frame s s' ∧ Q a s') ∨
  (∃ e s', o = Throw e s' ∧ frame s s').
Proof.
  destruct o as [a s'|e s'|]; simpl; [|eauto|intros []].
  intros [F H]. left. eauto.
Qed.

(** Property X4.  The expression parser terminates on every stream: with
    two units of fuel more than there are tokens left, [parseExpr] either
    returns, having moved the cursor forward, or throws; in both cases the
    token sequence is untouched and the cursor has not moved back. *)
Theorem parseExpr_terminates s (n : nat) :
  (∃ e s',
     parseExpr (remaining s + 2 + n) s = Return e s' ∧
     TokenStream.source s' = TokenStream.source s ∧ (TokenStream.index s < TokenStream.index s')%nat) ∨
  (∃ exn s',
     parseExpr (remaining s + 2 + n) s = Throw exn s' ∧
     TokenStream.source s' = TokenStream.source s ∧ (TokenStream.index s ≤ TokenStream.index s')%nat).
Proof.
  destruct (safe_cases s _ _ (parsePratt_safe (remaining s + 2 + n) 0 s ltac:(lia)))
    as [(e & s' & E & [Hs Hi] & [_ Hp])|(exn & s' & E & [Hs Hi])].
  - left. exists e, s'. auto.
  - right. exists exn, s'. auto.
Qed.

(** Property X5.  [parseFunctionDecl] and [parseVariableDecl] terminate
    on every stream, with the same fuel bound and the same frame as the
    expression parser. *)
Theorem declarations_terminate s (n : nat) :
  ((∃ d s',
      parseFunctionDecl (remaining s + 2 + n) s = Return d s' ∧
      TokenStream.source s' = TokenStream.source s ∧ (TokenStream.index s < TokenStream.index s')%nat) ∨
   (∃ exn s',
      parseFunctionDecl (remaining s + 2 + n) s = Throw exn s' ∧
      TokenStream.source s' = TokenStream.source s ∧ (TokenStream.index s ≤ TokenStream.index s')%nat)) ∧
  ((∃ d s',
      parseVariableDecl (remaining s + 2 + n) s = Return d s' ∧
      TokenStream.source s' = TokenStream.source s ∧ (TokenStream.index s < TokenStream.index s')%nat) ∨
   (∃ exn s',
      parseVariableDecl (remaining s + 2 + n) s = Throw exn s' ∧
      TokenStream.source s' = TokenStream.source s ∧ (TokenStream.index s ≤ TokenStream.index s')%nat)).
Proof.
  split.
  - destruct (safe_cases s _ _
                (parseFunctionDecl_safe (remaining s + 2 + n) s ltac:(lia)))
      as [(e & s' & E & [Hs Hi] & [_ Hp])|(exn & s' & E & [Hs Hi])].
    + left. exists e, s'. auto.
    + right. exists exn, s'. auto.
  - destruct (safe_cases s _ _
                (parseVariableDecl_safe (remaining s + 2 + n) s ltac:(lia)))
      as [(e & s' & E & [Hs Hi] & [_ Hp])|(exn & s' & E & [Hs Hi])].
    + left. exists e, s'. auto.
    + right. exists exn, s'. auto.
Qed.




End TerminationTheorems.

Ltac table_entry H :=
  apply list_elem_of_In in H; simpl in H;
  repeat (destruct H as [H | H]; [try discriminate H; injection H as <- |]);
  [.. | destruct H].

Ltac run_stream :=
  repeat first
    [ rewrite getKind_cursor_cons
    | rewrite getKind_cursor_nil
    | rewrite getToken_cursor_cons
    | rewrite getToken_cursor_nil
    | rewrite next_cursor_cons
    | rewrite next_cursor_nil
    | rewrite nextWith_cursor_cons
    | rewrite nextWith_cursor_nil
    | rewrite expect_cursor_cons
    | rewrite expect_cursor_nil ];
  cbv beta iota.

(** ** One step of the Pratt loop *)

Section PrattSteps.

Implicit Types (pre post : list Token.t) (tok a : Token.t).

Lemma find_infix_entry (op : InfixInfo.t) :
  Infix op ∈ operators →
  find (isInfixFor (InfixToken.kind (InfixInfo.token op))) operators = Some op.
Proof. intros H. table_entry H; reflexivity. Qed.

Lemma infix_entry_rbp (op : InfixInfo.t) :
  Infix op ∈ operators → InfixInfo.rbp op = S (InfixInfo.lbp op).
Proof. intros H. table_entry H; reflexivity. Qed.

Lemma find_prefix_entry (u : PrefixInfo.t) :
  Prefix u ∈ operators →
  find (isPrefixFor (PrefixToken.kind (PrefixInfo.token u))) operators = Some u.
Proof. intros H. table_entry H; reflexivity. Qed.

Lemma prefix_entry_bp (u : PrefixInfo.t) :
  Prefix u ∈ operators → PrefixInfo.bp u = 80%nat.
Proof. intros H. table_entry H; reflexivity. Qed.

Lemma infix_entry_lbp_le (op : InfixInfo.t) :
  Infix op ∈ operators → (InfixInfo.lbp op ≤ 70)%nat.
Proof. intros H. table_entry H; simpl; lia. Qed.

Lemma endsExpr_stops minBp post : endsExpr post = true → stops minBp post = true.
Proof.
  destruct post as [|tok post]; [reflexivity|]. unfold endsExpr, stops.
  destruct (find (isInfixFor (Token.kind tok)) operators);
    [discriminate | reflexivity].
Qed.

Section KnotSteps.

Variable parsePratt_rec : nat → M TokenStream.t Node.

Lemma loop_stops (fuel minBp : nat) (left : Node) pre post :
  stops minBp post = true →
  parsePratt_loop parsePratt_rec (S fuel) minBp left (cursor pre post)
  = Return left (cursor pre post).
Proof.
  intros Hstop. cbn [parsePratt_loop]. unfold mbind, M_bind.
  destruct post as [|tok post]; run_stream; [reflexivity|].
  unfold stops in Hstop.
  destruct (find (isInfixFor (Token.kind tok)) operators) as [info|];
    [|reflexivity].
  rewrite Hstop. reflexivity.
Qed.

Lemma loop_infix (fuel minBp : nat) (left : Node) (op : InfixInfo.t)
  (l : Loc) pre post :
  Infix op ∈ operators →
  (minBp ≤ InfixInfo.lbp op)%nat →
  parsePratt_loop parsePratt_rec (S fuel) minBp left
    (cursor pre (infixToken op l :: post))
  = match
      parsePratt_rec (InfixInfo.rbp op) (cursor (pre ++ [infixToken op l]) post)
    with
    | Return e s' =>
        parsePratt_loop parsePratt_rec fuel minBp
          (Binary (binaryMode (InfixInfo.token op)) left e l) s'
    | Throw e s' => Throw e s'
    | OutOfFuel => OutOfFuel
    end.
Proof.
  intros Hop Hbp. cbn [parsePratt_loop]. unfold mbind, M_bind. run_stream.
  change (Token.kind (infixToken op l))
    with (InfixToken.kind (InfixInfo.token op)).
  rewrite (find_infix_entry op Hop).
  rewrite bool_decide_eq_false_2 by lia.
  unfold parseInfix_, mbind, M_bind. run_stream.
  destruct (parsePratt_rec _ _); reflexivity.
Qed.

Lemma body_operand (fuel minBp : nat) a pre post :
  operand a = true →
  parsePratt_ parsePratt_rec fuel minBp (cursor pre (a :: post))
  = parsePratt_loop parsePratt_rec fuel minBp (leaf a)
      (cursor (pre ++ [a]) post).
Proof.
  intros Ha. unfold parsePratt_, mbind, M_bind. run_stream.
  assert (find (isPrefixFor (Token.kind a)) operators = None) as ->.
  { unfold operand in Ha. destruct (Token.kind a); try discriminate Ha;
      reflexivity. }
  unfold parseAtom_, mbind, M_bind. run_stream.
  unfold operand in Ha. unfold leaf.
  destruct (Token.kind a); try discriminate Ha; run_stream; reflexivity.
Qed.

Lemma body_prefix (fuel minBp : nat) (u : PrefixInfo.t) (l : Loc) pre post :
  Prefix u ∈ operators →
  parsePratt_ parsePratt_rec fuel minBp (cursor pre (prefixToken u l :: post))
  = match
      parsePratt_rec (PrefixInfo.bp u) (cursor (pre ++ [prefixToken u l]) post)
    with
    | Return e s' =>
        parsePratt_loop parsePratt_rec fuel minBp
          (Unary (unaryMode (PrefixInfo.token u)) e l) s'
    | Throw e s' => Throw e s'
    | OutOfFuel => OutOfFuel
    end.
Proof.
  intros Hu. unfold parsePratt_, mbind, M_bind. run_stream.
  change (Token.kind (prefixToken u l))
    with (PrefixToken.kind (PrefixInfo.token u)).
  rewrite (find_prefix_entry u Hu).
  unfold parsePrefix_, mbind, M_bind. run_stream.
  destruct (parsePratt_rec _ _); reflexivity.
Qed.

End KnotSteps.

End PrattSteps.

(** ** Chains of operators *)

Section Chains.

Implicit Types (pre post : list Token.t) (a : Token.t) (rest : list Link).

Lemma stops_chain (k : Link) rest post :
  Forall linkOk rest →
  endsExpr post = true →
  match rest with
  | [] => True
  | k' :: _ => (InfixInfo.lbp (linkOp k') ≤ InfixInfo.lbp (linkOp k))%nat
  end →
  Infix (linkOp k) ∈ operators →
  stops (InfixInfo.rbp (linkOp k)) (chainTokens rest ++ post) = true.
Proof.
  intros Hok Hpost Hle Hk.
  destruct rest as [|k' rest]; [apply endsExpr_stops, Hpost|].
  apply Forall_cons in Hok as [[Hk' _] _].
  unfold stops. cbn [chainTokens flat_map linkTokens app].
  change (Token.kind (infixToken k'.1.1 k'.1.2))
    with (InfixToken.kind (InfixInfo.token (linkOp k'))).
  rewrite (find_infix_entry _ Hk'), (infix_entry_rbp _ Hk).
  apply bool_decide_eq_true. lia.
Qed.

Lemma parsePratt_S (fuel minBp : nat) (s : TokenStream.t) :
  parsePratt (S fuel) minBp s = parsePratt_ (parsePratt fuel) fuel minBp s.
Proof. reflexivity. Qed.

Lemma pratt_operand (n minBp : nat) a pre post :
  operand a = true →
  stops minBp post = true →
  parsePratt (S (S n)) minBp (cursor pre (a :: post))
  = Return (leaf a) (cursor (pre ++ [a]) post).
Proof.
  intros Ha Hstop. rewrite parsePratt_S, body_operand by exact Ha.
  apply loop_stops, Hstop.
Qed.

Lemma loop_left_fold (n fuel minBp : nat) rest (left : Node) pre post :
  Forall linkOk rest →
  Forall (λ k, minBp ≤ InfixInfo.lbp (linkOp k))%nat rest →
  descending rest →
  endsExpr post = true →
  parsePratt_loop (parsePratt (S (S n))) (S (List.length rest + fuel)) minBp left
    (cursor pre (chainTokens rest ++ post))
  = Return (leftFold left rest) (cursor (pre ++ chainTokens rest) post).
Proof.
  revert left pre. induction rest as [|k rest IH]; intros left pre Hok Hbp Hdesc Hpost.
  - cbn [chainTokens flat_map app List.length]. rewrite List.app_nil_r.
    apply loop_stops, endsExpr_stops, Hpost.
  - apply Forall_cons in Hok as [[Hk Ha] Hok].
    apply Forall_cons in Hbp as [Hbpk Hbp].
    cbn [chainTokens flat_map linkTokens app List.length Nat.add].
    fold (chainTokens rest).
    rewrite loop_infix by assumption.
    rewrite pratt_operand; [|exact Ha|].
    2:{ apply stops_chain; try assumption.
        destruct rest as [|k' rest']; [exact I|]. apply Hdesc. }
    rewrite IH; try assumption.
    + cbn [leftFold foldl]. rewrite <- !List.app_assoc. reflexivity.
    + destruct rest as [|k' rest']; [exact I|]. apply Hdesc.
Qed.

Lemma pratt_right_nest (n minBp : nat) rest a pre post :
  operand a = true →
  Forall linkOk rest →
  match rest with
  | [] => True
  | k :: _ => (minBp ≤ InfixInfo.lbp (linkOp k))%nat
  end →
  ascending rest →
  endsExpr post = true →
  parsePratt (S (S (List.length rest + n))) minBp
    (cursor pre (a :: chainTokens rest ++ post))
  = Return (rightNest a rest) (cursor (pre ++ a :: chainTokens rest) post).
Proof.
  revert a pre minBp. induction rest as [|k rest IH];
    intros a pre minBp Ha Hok Hbp Hasc Hpost.
  - apply pratt_operand; [exact Ha | apply endsExpr_stops, Hpost].
  - apply Forall_cons in Hok as [[Hk Hb] Hok].
    cbn [chainTokens flat_map linkTokens app List.length rightNest Nat.add].
    fold (chainTokens rest).
    rewrite parsePratt_S, body_operand by exact Ha.
    rewrite loop_infix by assumption.
    rewrite IH; try assumption.
    + rewrite loop_stops by apply endsExpr_stops, Hpost.
      rewrite <- !List.app_assoc. reflexivity.
    + destruct rest as [|k' rest']; [exact I|].
      pose proof (infix_entry_rbp _ Hk) as Hr. destruct Hasc as [Hlt _].
      unfold linkOp in *. lia.
    + destruct rest as [|k' rest']; [exact I|]. apply Hasc.
Qed.

Lemma pratt_unary_nest (n minBp : nat) (us : list (PrefixInfo.t * Loc))
  a pre post :
  operand a = true →
  Forall (λ u, Prefix u.1 ∈ operators) us →
  endsExpr post = true →
  parsePratt (S (S (List.length us + n))) minBp
    (cursor pre (prefixTokens us ++ a :: post))
  = Return (unaryNest us a) (cursor (pre ++ prefixTokens us ++ [a]) post).
Proof.
  revert pre minBp. induction us as [|u us IH]; intros pre minBp Ha Hus Hpost.
  - apply pratt_operand; [exact Ha | apply endsExpr_stops, Hpost].
  - apply Forall_cons in Hus as [Hu Hus].
    cbn [prefixTokens map app List.length unaryNest foldr Nat.add].
    fold (prefixTokens us). fold (unaryNest us a).
    rewrite parsePratt_S, body_prefix by exact Hu.
    rewrite IH by assumption.
    rewrite loop_stops by apply endsExpr_stops, Hpost.
    rewrite <- !List.app_assoc. reflexivity.
Qed.

End Chains.

Section ChainTheorems.

Implicit Types (pre post : list Token.t) (a : Token.t) (rest : list Link).

Lemma body_paren (parsePratt_rec : nat → M TokenStream.t Node)
  (fuel minBp : nat) (open : Token.t) pre post :
  Token.kind open = TokenKind.OpenParen →
  parsePratt_ parsePratt_rec fuel minBp (cursor pre (open :: post))
  = match parsePratt_rec 0 (cursor (pre ++ [open]) post) with
    | Return e s' =>
        match nextWith TokenKind.CloseParen s' with
        | Return _ s'' => parsePratt_loop parsePratt_rec fuel minBp e s''
        | Throw exn s'' => Throw exn s''
        | OutOfFuel => OutOfFuel
        end
    | Throw exn s' => Throw exn s'
    | OutOfFuel => OutOfFuel
    end.
Proof.
  intros Hopen. unfold parsePratt_, mbind, M_bind. run_stream.
  assert (find (isPrefixFor (Token.kind open)) operators = None) as ->
    by (rewrite Hopen; reflexivity).
  unfold parseAtom_, mbind, M_bind. run_stream. rewrite Hopen.
  run_stream. unfold parseExpr_.
  destruct (parsePratt_rec 0 _) as [e s'| |]; try reflexivity.
  destruct (nextWith TokenKind.CloseParen s') as [[] s''| |]; reflexivity.
Qed.

Lemma pratt_left_fold (n minBp : nat) a rest pre post :
  operand a = true →
  Forall linkOk rest →
  Forall (λ k, minBp ≤ InfixInfo.lbp (linkOp k))%nat rest →
  descending rest →
  endsExpr post = true →
  parsePratt (S (S (List.length rest + n))) minBp
    (cursor pre (a :: chainTokens rest ++ post))
  = Return (leftFold (leaf a) rest) (cursor (pre ++ a :: chainTokens rest) post).
Proof.
  intros Ha Hok Hbp Hdesc Hpost.
  destruct rest as [|k rest].
  - apply pratt_operand; [exact Ha | apply endsExpr_stops, Hpost].
  - rewrite parsePratt_S, body_operand by exact Ha.
    cbn [List.length Nat.add].
    rewrite (loop_left_fold (List.length rest + n) n minBp (k :: rest));
      try assumption.
    rewrite <- !List.app_assoc. reflexivity.
Qed.

(** Property X7.  A chain [a op1 b op2 c ...] of one-token operands whose
    operators never go up in binding power parses to the left fold
    [((a op1 b) op2 c) ...], wherever it stands in the stream, provided
    what follows is not an infix operator. *)
Theorem descending_chain_folds_left (n : nat) a rest pre post :
  operand a = true →
  Forall linkOk rest →
  descending rest →
  endsExpr post = true →
  parseExpr (2 + List.length rest + n)
    (cursor pre (a :: chainTokens rest ++ post))
  = Return (leftFold (leaf a) rest) (cursor (pre ++ a :: chainTokens rest) post).
Proof.
  intros Ha Hok Hdesc Hpost. unfold parseExpr, parseExpr_.
  apply pratt_left_fold; try assumption.
  apply Forall_forall. intros. lia.
Qed.

(** Property X8.  A chain whose operators go up in binding power at every
    step parses to the right-nested tree [a op1 (b op2 (c ...))]. *)
Theorem ascending_chain_nests_right (n : nat) a rest pre post :
  operand a = true →
  Forall linkOk rest →
  ascending rest →
  endsExpr post = true →
  parseExpr (2 + List.length rest + n)
    (cursor pre (a :: chainTokens rest ++ post))
  = Return (rightNest a rest) (cursor (pre ++ a :: chainTokens rest) post).
Proof.
  intros Ha Hok Hasc Hpost. unfold parseExpr, parseExpr_.
  apply pratt_right_nest; try assumption.
  destruct rest; [exact I | lia].
Qed.

(** Property X9.  Any run of prefix operators before an operand parses to
    nested [Unary] nodes, the first operator outermost, each located at its
    own token. *)
Theorem prefix_operators_nest (n : nat) (us : list (PrefixInfo.t * Loc))
  a pre post :
  operand a = true →
  Forall (λ u, Prefix u.1 ∈ operators) us →
  endsExpr post = true →
  parseExpr (2 + List.length us + n)
    (cursor pre (prefixTokens us ++ a :: post))
  = Return (unaryNest us a) (cursor (pre ++ prefixTokens us ++ [a]) post).
Proof.
  intros Ha Hus Hpost. unfold parseExpr, parseExpr_.
  apply pratt_unary_nest; assumption.
Qed.

(** Property X10.  Prefix operators after an infix operator belong to the
    right operand: [a op u1 u2 b] parses to
    [Binary(op, a, Unary(u1, Unary(u2, b)))], for every infix entry, so
    [a - -b] is a subtraction of a negation. *)
Theorem infix_then_prefix (n : nat) (op : InfixInfo.t) (l : Loc)
  (us : list (PrefixInfo.t * Loc)) a b pre post :
  operand a = true → operand b = true →
  Infix op ∈ operators →
  Forall (λ u, Prefix u.1 ∈ operators) us →
  endsExpr post = true →
  parseExpr (3 + List.length us + n)
    (cursor pre (a :: infixToken op l :: prefixTokens us ++ b :: post))
  = Return
      (Binary (binaryMode (InfixInfo.token op)) (leaf a) (unaryNest us b) l)
      (cursor (pre ++ a :: infixToken op l :: prefixTokens us ++ [b]) post).
Proof.
  intros Ha Hb Hop Hus Hpost. unfold parseExpr, parseExpr_.
  change (3 + List.length us + n)%nat
    with (S (S (S (List.length us + n)))).
  rewrite parsePratt_S, body_operand by exact Ha.
  rewrite loop_infix; [|exact Hop|lia].
  rewrite pratt_unary_nest by assumption.
  rewrite loop_stops by apply endsExpr_stops, Hpost.
  rewrite <- !List.app_assoc. reflexivity.
Qed.


End ChainTheorems.

(** ** Parameter lists *)

Section Params.

Implicit Types (pre post : list Token.t) (items rest : list (Loc * Token.t)).

Lemma parseParams_loop_more (fuel : nat) rest (acc : list (option string))
  pre post :
  (0 < List.length acc)%nat →
  Forall isIdentifier rest →
  parseParams_loop (List.length rest + fuel) acc
    (cursor pre (moreParams rest ++ post))
  = parseParams_loop fuel (acc ++ paramNames rest)
      (cursor (pre ++ moreParams rest) post).
Proof.
  revert acc pre. induction rest as [|p rest IH]; intros acc pre Hacc Hids.
  - cbn. rewrite !List.app_nil_r. reflexivity.
  - apply Forall_cons in Hids as [Hp Hids]. unfold isIdentifier in Hp.
    cbn [moreParams flat_map app List.length Nat.add paramNames map].
    fold (moreParams rest). fold (paramNames rest).
    cbn [parseParams_loop]. unfold mbind, M_bind. run_stream.
    cbn [TOKEN Token.kind].
    rewrite (bool_decide_eq_true_2 (TokenKind.Comma ≠ TokenKind.CloseParen))
      by discriminate.
    rewrite (bool_decide_eq_true_2 (0 < List.length acc)%nat) by exact Hacc.
    run_stream. cbn [TOKEN Token.kind].
    rewrite (bool_decide_eq_false_2 (TokenKind.Comma ≠ TokenKind.Comma))
      by auto.
    run_stream.
    rewrite (bool_decide_eq_false_2 (Token.kind p.2 ≠ TokenKind.Identifier))
      by (rewrite Hp; auto).
    run_stream.
    rewrite IH by (rewrite ?List.length_app; simpl; lia || assumption).
    rewrite <- !List.app_assoc. reflexivity.
Qed.


Lemma parseParams_items (fuel : nat) items (open : Token.t) pre post :
  Token.kind open = TokenKind.OpenParen →
  Forall isIdentifier items →
  parseParams (List.length items + fuel)
    (cursor pre (open :: paramTokens items ++ post))
  = (items' ← parseParams_loop fuel (paramNames items);
     nextWith TokenKind.CloseParen;;
     mret items')
      (cursor (pre ++ open :: paramTokens items) post).
Proof.
  intros Hopen Hids. unfold parseParams at 1, mbind at 1 2, M_bind at 1 2.
  run_stream.
  rewrite bool_decide_eq_false_2 by (rewrite Hopen; auto).
  destruct items as [|p rest].
  - cbn [paramTokens moreParams flat_map drop app List.length Nat.add paramNames map].
    reflexivity.
  - apply Forall_cons in Hids as [Hp Hids]. unfold isIdentifier in Hp.
    cbn [paramTokens moreParams flat_map drop app List.length Nat.add paramNames map].
    fold (moreParams rest). fold (paramNames rest).
    cbn [parseParams_loop]. unfold mbind at 1 2 3 4 5 6, M_bind at 1 2 3 4 5 6.
    run_stream.
    rewrite (bool_decide_eq_true_2 (Token.kind p.2 ≠ TokenKind.CloseParen))
      by (rewrite Hp; discriminate).
    rewrite (bool_decide_eq_false_2 (0 < List.length [])%nat) by (simpl; lia).
    unfold mret at 1, M_ret at 1. run_stream.
    rewrite (bool_decide_eq_false_2 (Token.kind p.2 ≠ TokenKind.Identifier))
      by (rewrite Hp; auto).
    run_stream.
    rewrite parseParams_loop_more by (simpl; lia || assumption).
    rewrite <- !List.app_assoc. reflexivity.
Qed.

Lemma parseParams_tokens (n : nat) items (open close : Token.t)
  pre post :
  Token.kind open = TokenKind.OpenParen →
  Token.kind close = TokenKind.CloseParen →
  Forall isIdentifier items →
  parseParams (List.length items + S n)
    (cursor pre (open :: paramTokens items ++ close :: post))
  = Return (paramNames items)
      (cursor (pre ++ open :: paramTokens items ++ [close]) post).
Proof.
  intros Hopen Hclose Hids.
  rewrite parseParams_items by assumption.
  cbn [parseParams_loop]. unfold mbind, M_bind. run_stream.
  rewrite bool_decide_eq_false_2 by (rewrite Hclose; auto).
  unfold mret, M_ret. run_stream.
  rewrite bool_decide_eq_false_2 by (rewrite Hclose; auto).
  replace (pre ++ open :: paramTokens items ++ [close])
    with ((pre ++ open :: paramTokens items) ++ [close])
    by (rewrite <- List.app_assoc; reflexivity).
  reflexivity.
Qed.


(** Property X14.  A parenthesized, comma-separated list of identifier
    tokens, empty or not and with or without repeated names, parses to the
    list of their texts in order, and the cursor ends after the [)]. *)
Theorem parseParams_returns_the_names (n : nat) items (open close : Token.t)
  pre post :
  Token.kind open = TokenKind.OpenParen →
  Token.kind close = TokenKind.CloseParen →
  Forall isIdentifier items →
  parseParams (List.length items + S n)
    (cursor pre (open :: paramTokens items ++ close :: post))
  = Return (paramNames items)
      (cursor (pre ++ open :: paramTokens items ++ [close]) post).
Proof. apply parseParams_tokens. Qed.

(** Property X15.  After one or more parameters, a comma followed by [)]
    is rejected at the [)] (no trailing comma), a token that is neither
    [)] nor a comma is rejected where it stands, and the end of the stream
    is rejected as an unexpected [EOF] located at [{-1, -1}]; each time
    the exception is the located syntax error of [expect]. *)
Theorem parseParams_rejects (n : nat) items (open comma close tok : Token.t)
  pre post :
  Token.kind open = TokenKind.OpenParen →
  Token.kind comma = TokenKind.Comma →
  Token.kind close = TokenKind.CloseParen →
  Token.kind tok ≠ TokenKind.CloseParen →
  Token.kind tok ≠ TokenKind.Comma →
  Forall isIdentifier items →
  (0 < List.length items)%nat →
  parseParams (List.length items + S n)
    (cursor pre (open :: paramTokens items ++ comma :: close :: post))
  = Throw (error "unexpected token: CloseParen" (Token.loc close))
      (cursor (pre ++ open :: paramTokens items ++ [comma]) (close :: post)) ∧
  parseParams (List.length items + S n)
    (cursor pre (open :: paramTokens items ++ tok :: post))
  = Throw
      (error ("unexpected token: " +:+ TokenKind.name (Token.kind tok))
         (Token.loc tok))
      (cursor (pre ++ open :: paramTokens items) (tok :: post)) ∧
  parseParams (List.length items + S n)
    (cursor pre (open :: paramTokens items ++ []))
  = Throw (error "unexpected token: EOF" {| line := -1; column := -1 |})
      (cursor (pre ++ open :: paramTokens items) []).
Proof.
  intros Hopen Hcomma Hclose Htok1 Htok2 Hids Hlen.
  assert (0 < List.length (paramNames items))%nat as Hnames
    by (unfold paramNames; rewrite List.length_map; exact Hlen).
  rewrite !parseParams_items by assumption.
  cbn [parseParams_loop]. unfold mbind, M_bind. run_stream.
  rewrite !(bool_decide_eq_true_2 (0 < List.length (paramNames items))%nat)
    by exact Hnames.
  repeat split.
  - rewrite bool_decide_eq_true_2 by (rewrite Hcomma; discriminate).
    run_stream.
    rewrite bool_decide_eq_false_2 by (rewrite Hcomma; auto).
    run_stream.
    rewrite bool_decide_eq_true_2 by (rewrite Hclose; discriminate).
    rewrite Hclose.
    replace (pre ++ open :: paramTokens items ++ [comma])
      with ((pre ++ open :: paramTokens items) ++ [comma])
      by (rewrite <- List.app_assoc; reflexivity).
    reflexivity.
  - rewrite bool_decide_eq_true_2 by exact Htok1.
    run_stream.
    rewrite bool_decide_eq_true_2 by exact Htok2.
    reflexivity.
  - rewrite bool_decide_eq_true_2 by discriminate.
    run_stream.
    rewrite bool_decide_eq_true_2 by discriminate.
    reflexivity.
Qed.

End Params.

(** ** Programs of declarations *)

Section Program.

Implicit Types (pre post : list Token.t) (d : TopDecl) (ds : list TopDecl).

Ltac decide_kinds :=
  repeat first
    [ rewrite bool_decide_eq_false_2
        by (cbn [TOKEN Token.kind]; first [discriminate | auto])
    | rewrite bool_decide_eq_true_2
        by (cbn [TOKEN Token.kind]; first [reflexivity | discriminate]) ].

Lemma parseDecl_tokens (fuel : nat) d pre post :
  declOk d →
  (declFuel d ≤ fuel)%nat →
  match d with
  | DeclVar _ _ _ _ => parseVariableDecl fuel
  | DeclFn _ _ _ _ _ _ _ => parseFunctionDecl fuel
  end (cursor pre (declTokens d ++ post))
  = Return (declNode d) (cursor (pre ++ declTokens d) post).
Proof.
  intros Hok Hfuel.
  destruct d as [varLoc name init semi|fnLoc name open params close lb rb];
    cbn [declTokens declNode declOk declFuel app] in *.
  - destruct Hok as [Hname Hinit].
    unfold parseVariableDecl, mbind, M_bind. run_stream. decide_kinds.
    run_stream.
    rewrite bool_decide_eq_false_2 by (rewrite Hname; auto).
    run_stream.
    destruct init as [[eqLoc v]|]; cbn [app]; run_stream; decide_kinds.
    + run_stream. unfold parseExpr, parseExpr_.
      destruct fuel as [|[|fuel]]; [lia..|].
      rewrite pratt_operand; [|exact Hinit|reflexivity].
      unfold mret, M_ret. run_stream. decide_kinds.
      rewrite <- !List.app_assoc. reflexivity.
    + unfold mret, M_ret. run_stream. decide_kinds.
      rewrite <- !List.app_assoc. reflexivity.
  - destruct Hok as [Hname Hparams].
    unfold parseFunctionDecl, mbind, M_bind. run_stream. decide_kinds.
    run_stream.
    rewrite bool_decide_eq_false_2 by (rewrite Hname; auto).
    run_stream.
    replace fuel
      with (List.length params + S (fuel - S (List.length params)))%nat
      at 1 by lia.
    rewrite <- (List.app_assoc (paramTokens params)). cbn [app].
    rewrite parseParams_tokens by (reflexivity || assumption).
    unfold parseBlock, mbind, M_bind. run_stream. decide_kinds.
    destruct fuel as [|fuel]; [lia|].
    cbn [parseBlock_loop]. unfold mbind, M_bind. run_stream. decide_kinds.
    unfold mret, M_ret. run_stream. decide_kinds.
    repeat (rewrite <- !List.app_assoc; cbn [app]). reflexivity.
Qed.


Lemma parse_loop_program (fuel : nat) ds (acc : list Node) pre :
  Forall declOk ds →
  Forall (λ d, declFuel d ≤ fuel)%nat ds →
  parse_loop (S (List.length ds + fuel)) acc (cursor pre (programTokens ds))
  = Return (acc ++ map declNode ds) (cursor (pre ++ programTokens ds) []).
Proof.
  revert acc pre. induction ds as [|d ds IH]; intros acc pre Hok Hfuel.
  - cbn [programTokens flat_map map List.length parse_loop].
    unfold mbind, M_bind. run_stream.
    rewrite bool_decide_eq_false_2 by auto.
    rewrite !List.app_nil_r. reflexivity.
  - apply Forall_cons in Hok as [Hd Hok].
    apply Forall_cons in Hfuel as [Hfd Hfuel].
    cbn [programTokens flat_map map List.length Nat.add].
    fold (programTokens ds).
    pose proof (parseDecl_tokens (S (List.length ds + fuel)) d pre
                  (programTokens ds) Hd ltac:(lia)) as Hdecl.
    specialize (IH (acc ++ [declNode d])).
    set (F := S (List.length ds + fuel)) in *.
    cbn [parse_loop]. unfold mbind at 1 2, M_bind at 1 2.
    destruct d as [varLoc name init semi|fnLoc name open params close lb rb];
      cbn [declTokens app] in *; run_stream; decide_kinds;
      run_stream; cbn [TOKEN Token.kind];
      unfold mbind at 1, M_bind at 1; rewrite Hdecl, IH by assumption;
      repeat (rewrite <- !List.app_assoc; cbn [app]); reflexivity.
Qed.

(** Property X16.  A program that is a sequence of declarations [var x;],
    [var x = v;] and [fn f(params) { }] parses to the [Unit], located at
    [{1, 1}], of the corresponding nodes in source order, one per keyword,
    and the whole input is consumed. *)
Theorem parse_program (fuel : nat) ds :
  Forall declOk ds →
  Forall (λ d, declFuel d ≤ fuel)%nat ds →
  parse (S (List.length ds + fuel)) (TokenStream.new (programTokens ds))
  = Return (Unit (map declNode ds) {| line := 1; column := 1 |})
      (consumed (programTokens ds)).
Proof.
  intros Hok Hfuel. unfold parse, mbind, M_bind.
  rewrite new_cursor, parse_loop_program by assumption.
  rewrite consumed_cursor. reflexivity.
Qed.

End Program.

(** ** Starts of expressions and blocks *)

Section Statements.

Implicit Types (pre post : list Token.t) (a : Token.t) (rest : list Link).

Ltac decide_kinds :=
  repeat first
    [ rewrite bool_decide_eq_false_2
        by (cbn [TOKEN Token.kind]; first [discriminate | auto])
    | rewrite bool_decide_eq_true_2
        by (cbn [TOKEN Token.kind]; first [reflexivity | discriminate]) ].

(** Property X17.  On a token that is neither a prefix operator, a
    number, an identifier, [if] nor [(], and at the end of the stream, the
    expression parser throws the plain [Error] naming the kind and leaves
    the cursor where it was. *)
Theorem parseExpr_rejects_other_starts (n : nat) (tok : Token.t) pre post :
  startsExpr (Token.kind tok) = false →
  parseExpr (S n) (cursor pre (tok :: post))
  = Throw (Error ("unexpected token: " +:+ TokenKind.name (Token.kind tok)))
      (cursor pre (tok :: post)) ∧
  parseExpr (S n) (cursor pre [])
  = Throw (Error "unexpected token: EOF") (cursor pre []).
Proof.
  intros Hstart. unfold parseExpr, parseExpr_. rewrite !parsePratt_S.
  unfold parsePratt_, mbind, M_bind. run_stream. split.
  - assert (find (isPrefixFor (Token.kind tok)) operators = None) as ->
      by (destruct (Token.kind tok); try discriminate Hstart; reflexivity).
    unfold parseAtom_, mbind, M_bind. run_stream.
    destruct (Token.kind tok) eqn:Ek; try discriminate Hstart;
      run_stream; rewrite Ek; reflexivity.
  - change (find (isPrefixFor TokenKind.EOF) operators)
      with (@None PrefixInfo.t).
    unfold parseAtom_, mbind, M_bind. run_stream. reflexivity.
Qed.

Lemma parseBlock_empty (n : nat) (lb rb : Token.t) pre post :
  Token.kind lb = TokenKind.OpenBrace →
  Token.kind rb = TokenKind.CloseBrace →
  parseBlock (S n) (cursor pre (lb :: rb :: post))
  = Return [] (cursor (pre ++ [lb; rb]) post).
Proof.
  intros Hlb Hrb. unfold parseBlock, mbind, M_bind. run_stream.
  rewrite bool_decide_eq_false_2 by (rewrite Hlb; auto).
  cbn [parseBlock_loop]. unfold mbind, M_bind. run_stream.
  rewrite bool_decide_eq_false_2 by (rewrite Hrb; auto).
  unfold mret, M_ret. run_stream.
  rewrite bool_decide_eq_false_2 by (rewrite Hrb; auto).
  rewrite <- !List.app_assoc. reflexivity.
Qed.

(** Property X18.  After [{] the block parser returns only on [}], with
    no steps; on any other token, and at the end of the stream, it throws
    [Error('todo')] with the cursor just after the [{]. *)
Theorem parseBlock_accepts_only_empty (n : nat) (lb tok : Token.t) pre post :
  Token.kind lb = TokenKind.OpenBrace →
  parseBlock (S n) (cursor pre (lb :: tok :: post))
  = (if bool_decide (Token.kind tok = TokenKind.CloseBrace)
     then Return [] (cursor (pre ++ [lb; tok]) post)
     else Throw (Error "todo") (cursor (pre ++ [lb]) (tok :: post))) ∧
  parseBlock (S n) (cursor pre [lb])
  = Throw (Error "todo") (cursor (pre ++ [lb]) []).
Proof.
  intros Hlb. split.
  - case_bool_decide as Hk; [apply parseBlock_empty; assumption|].
    unfold parseBlock, mbind, M_bind. run_stream.
    rewrite bool_decide_eq_false_2 by (rewrite Hlb; auto).
    cbn [parseBlock_loop]. unfold mbind, M_bind. run_stream.
    rewrite bool_decide_eq_true_2 by exact Hk. reflexivity.
  - unfold parseBlock, mbind, M_bind. run_stream.
    rewrite bool_decide_eq_false_2 by (rewrite Hlb; auto).
    cbn [parseBlock_loop]. unfold mbind, M_bind. run_stream.
    rewrite bool_decide_eq_true_2 by discriminate. reflexivity.
Qed.

End Statements.

(** ** Conditionals and loops *)

Section Conditions.

Implicit Types (pre post : list Token.t) (a : Token.t) (rest : list Link).

Lemma endsExpr_kind (tok : Token.t) post (k : TokenKind.t) :
  Token.kind tok = k →
  find (isInfixFor k) operators = None →
  endsExpr (tok :: post) = true.
Proof. intros Hk Hfind. unfold endsExpr. rewrite Hk, Hfind. reflexivity. Qed.

Lemma parseCond_tokens (n : nat) a rest (open close : Token.t) pre post :
  Token.kind open = TokenKind.OpenParen →
  Token.kind close = TokenKind.CloseParen →
  operand a = true → Forall linkOk rest → descending rest →
  parseCond (S (S (List.length rest + n)))
    (cursor pre (open :: a :: chainTokens rest ++ close :: post))
  = Return (leftFold (leaf a) rest)
      (cursor (pre ++ open :: a :: chainTokens rest ++ [close]) post).
Proof.
  intros Hopen Hclose Ha Hok Hdesc.
  unfold parseCond, parseCond_, parseExpr_, mbind, M_bind. run_stream.
  rewrite bool_decide_eq_false_2 by (rewrite Hopen; auto).
  rewrite pratt_left_fold; try assumption.
  - run_stream. rewrite bool_decide_eq_false_2 by (rewrite Hclose; auto).
    repeat (rewrite <- !List.app_assoc; cbn [app]). reflexivity.
  - apply Forall_forall. intros. lia.
  - eapply endsExpr_kind; [exact Hclose | reflexivity].
Qed.

Lemma parseIf_then (n : nat) a rest (iftok open close lb rb : Token.t)
  pre post :
  Token.kind iftok = TokenKind.If →
  Token.kind open = TokenKind.OpenParen →
  Token.kind close = TokenKind.CloseParen →
  Token.kind lb = TokenKind.OpenBrace →
  Token.kind rb = TokenKind.CloseBrace →
  operand a = true → Forall linkOk rest → descending rest →
  parseIf (S (S (List.length rest + n)))
    (cursor pre
       (iftok :: open :: a :: chainTokens rest ++ close :: lb :: rb :: post))
  = (k ← getKind;
     elseBlock ←
       (if bool_decide (k = TokenKind.Else) then
          tok ← getToken;
          next;;
          elseSteps ← parseBlock (S (S (List.length rest + n)));
          mret (Some (Block elseSteps (Token.loc tok)))
        else mret None);
     mret (If (leftFold (leaf a) rest) (Block [] (Token.loc lb)) elseBlock
             (Token.loc iftok)))
      (cursor
         (pre ++ iftok :: open :: a :: chainTokens rest ++ [close; lb; rb])
         post).
Proof.
  intros Hif Hopen Hclose Hlb Hrb Ha Hok Hdesc.
  unfold parseIf, parseIf_. unfold mbind at 1 2 3 4 5, M_bind at 1 2 3 4 5.
  run_stream. rewrite bool_decide_eq_false_2 by (rewrite Hif; auto).
  change (parseCond_ (parsePratt (S (S (List.length rest + n)))))
    with (parseCond (S (S (List.length rest + n)))).
  rewrite parseCond_tokens by assumption.
  run_stream. rewrite parseBlock_empty by assumption.
  repeat (rewrite <- !List.app_assoc; cbn [app]). reflexivity.
Qed.

(** Property X19.  [if (cond) { }] parses to an [If] without else-block,
    located at [if], whose then-block is located at its [{];
    [if (cond) { } else { }] gets an else-block located at the [else]
    keyword; after [else] anything but [{], in particular another [if], is
    rejected where it stands. *)
Theorem parseIf_with_empty_blocks (n : nat) a rest
  (iftok open close lb rb elsetok lb' rb' tok : Token.t) pre post post' :
  Token.kind iftok = TokenKind.If →
  Token.kind open = TokenKind.OpenParen →
  Token.kind close = TokenKind.CloseParen →
  Token.kind lb = TokenKind.OpenBrace →
  Token.kind rb = TokenKind.CloseBrace →
  Token.kind elsetok = TokenKind.Else →
  Token.kind lb' = TokenKind.OpenBrace →
  Token.kind rb' = TokenKind.CloseBrace →
  Token.kind tok ≠ TokenKind.OpenBrace →
  headKind post ≠ TokenKind.Else →
  operand a = true → Forall linkOk rest → descending rest →
  parseIf (S (S (List.length rest + n)))
    (cursor pre
       (iftok :: open :: a :: chainTokens rest ++ close :: lb :: rb :: post))
  = Return
      (If (leftFold (leaf a) rest) (Block [] (Token.loc lb)) None
         (Token.loc iftok))
      (cursor
         (pre ++ iftok :: open :: a :: chainTokens rest ++ [close; lb; rb])
         post) ∧
  parseIf (S (S (List.length rest + n)))
    (cursor pre
       (iftok :: open :: a :: chainTokens rest ++
        close :: lb :: rb :: elsetok :: lb' :: rb' :: post'))
  = Return
      (If (leftFold (leaf a) rest) (Block [] (Token.loc lb))
         (Some (Block [] (Token.loc elsetok))) (Token.loc iftok))
      (cursor
         (pre ++ iftok :: open :: a :: chainTokens rest ++
          [close; lb; rb; elsetok; lb'; rb'])
         post') ∧
  parseIf (S (S (List.length rest + n)))
    (cursor pre
       (iftok :: open :: a :: chainTokens rest ++
        close :: lb :: rb :: elsetok :: tok :: post'))
  = Throw
      (error ("unexpected token: " +:+ TokenKind.name (Token.kind tok))
         (Token.loc tok))
      (cursor
         (pre ++ iftok :: open :: a :: chainTokens rest ++
          [close; lb; rb; elsetok])
         (tok :: post')).
Proof.
  intros Hif Hopen Hclose Hlb Hrb Helse Hlb' Hrb' Htok Hpost Ha Hok Hdesc.
  rewrite !parseIf_then by assumption.
  unfold mbind, M_bind, mret, M_ret. repeat split.
  - destruct post as [|tok0 post]; run_stream;
      rewrite bool_decide_eq_false_2 by exact Hpost; reflexivity.
  - run_stream. rewrite bool_decide_eq_true_2 by exact Helse.
    run_stream. rewrite parseBlock_empty by assumption.
    repeat (rewrite <- !List.app_assoc; cbn [app]). reflexivity.
  - run_stream. rewrite bool_decide_eq_true_2 by exact Helse.
    run_stream. unfold parseBlock, mbind, M_bind. run_stream.
    rewrite bool_decide_eq_true_2 by exact Htok.
    repeat (rewrite <- !List.app_assoc; cbn [app]). reflexivity.
Qed.

(** Property X20.  [while (cond) { }] parses to a [While] of mode
    ['while'] and [do { } while (cond)] to one of mode ['do-while'], both
    located at their first token; on any other first token [parseWhile]
    throws the syntax error for that token without consuming it. *)
Theorem parseWhile_with_empty_body (n : nat) a rest
  (whiletok dotok open close lb rb tok : Token.t) pre post :
  Token.kind whiletok = TokenKind.While →
  Token.kind dotok = TokenKind.Do →
  Token.kind open = TokenKind.OpenParen →
  Token.kind close = TokenKind.CloseParen →
  Token.kind lb = TokenKind.OpenBrace →
  Token.kind rb = TokenKind.CloseBrace →
  Token.kind tok ≠ TokenKind.While →
  Token.kind tok ≠ TokenKind.Do →
  operand a = true → Forall linkOk rest → descending rest →
  parseWhile (S (S (List.length rest + n)))
    (cursor pre
       (whiletok :: open :: a :: chainTokens rest ++ close :: lb :: rb :: post))
  = Return
      (While WhileMode.while (leftFold (leaf a) rest) [] (Token.loc whiletok))
      (cursor
         (pre ++ whiletok :: open :: a :: chainTokens rest ++ [close; lb; rb])
         post) ∧
  parseWhile (S (S (List.length rest + n)))
    (cursor pre
       (dotok :: lb :: rb :: whiletok :: open :: a :: chainTokens rest ++
        close :: post))
  = Return
      (While WhileMode.do_while (leftFold (leaf a) rest) [] (Token.loc dotok))
      (cursor
         (pre ++ dotok :: lb :: rb :: whiletok :: open :: a ::
          chainTokens rest ++ [close])
         post) ∧
  parseWhile (S (S (List.length rest + n))) (cursor pre (tok :: post))
  = Throw
      (error ("unexpected token: " +:+ TokenKind.name (Token.kind tok))
         (Token.loc tok))
      (cursor pre (tok :: post)).
Proof.
  intros Hwhile Hdo Hopen Hclose Hlb Hrb Htok1 Htok2 Ha Hok Hdesc.
  unfold parseWhile, parseWhile_. repeat split.
  - unfold mbind at 1 2, M_bind at 1 2. run_stream.
    rewrite bool_decide_eq_true_2 by exact Hwhile.
    unfold mbind at 1 2 3, M_bind at 1 2 3. run_stream.
    rewrite bool_decide_eq_false_2 by (rewrite Hwhile; auto).
    change (parseCond_ (parsePratt (S (S (List.length rest + n)))))
      with (parseCond (S (S (List.length rest + n)))).
    rewrite parseCond_tokens by assumption.
    rewrite parseBlock_empty by assumption.
    repeat (rewrite <- !List.app_assoc; cbn [app]). reflexivity.
  - unfold mbind at 1 2, M_bind at 1 2. run_stream.
    rewrite bool_decide_eq_false_2 by (rewrite Hdo; discriminate).
    unfold mbind at 1 2 3 4, M_bind at 1 2 3 4. run_stream.
    rewrite bool_decide_eq_false_2 by (rewrite Hdo; auto).
    rewrite parseBlock_empty by assumption.
    run_stream.
    rewrite bool_decide_eq_false_2 by (rewrite Hwhile; auto).
    change (parseCond_ (parsePratt (S (S (List.length rest + n)))))
      with (parseCond (S (S (List.length rest + n)))).
    rewrite parseCond_tokens by assumption.
    repeat (rewrite <- !List.app_assoc; cbn [app]). reflexivity.
  - unfold mbind at 1 2, M_bind at 1 2. run_stream.
    rewrite bool_decide_eq_false_2 by exact Htok1.
    unfold mbind at 1, M_bind at 1. run_stream.
    rewrite bool_decide_eq_true_2 by exact Htok2. reflexivity.
Qed.

End Conditions.

(** ** Parentheses *)

Section Grouping.

Implicit Types (pre post : list Token.t) (a c : Token.t) (rest : list Link).

(** Property X12.  Grouping overrides the tiers: for every infix entry
    [op], [(a ... ) op c] parses to [Binary(op, inner, c)] and
    [c op (a ...)] to [Binary(op, c, inner)], where [inner] is the tree of
    the parenthesized chain, whatever the binding powers inside and
    outside. *)
Theorem grouping_overrides_tiers (n : nat) a rest (open close : Token.t)
  (op : InfixInfo.t) (l : Loc) c pre post :
  Token.kind open = TokenKind.OpenParen →
  Token.kind close = TokenKind.CloseParen →
  operand a = true → Forall linkOk rest → descending rest →
  Infix op ∈ operators → operand c = true →
  endsExpr post = true →
  parseExpr (3 + List.length rest + n)
    (cursor pre
       (open :: a :: chainTokens rest ++ close :: infixToken op l :: c :: post))
  = Return
      (Binary (binaryMode (InfixInfo.token op))
         (leftFold (leaf a) rest) (leaf c) l)
      (cursor
         (pre ++ open :: a :: chainTokens rest ++ [close; infixToken op l; c])
         post) ∧
  parseExpr (4 + List.length rest + n)
    (cursor pre
       (c :: infixToken op l :: open :: a :: chainTokens rest ++ close :: post))
  = Return
      (Binary (binaryMode (InfixInfo.token op))
         (leaf c) (leftFold (leaf a) rest) l)
      (cursor
         (pre ++ c :: infixToken op l :: open :: a :: chainTokens rest ++ [close])
         post).
Proof.
  intros Hopen Hclose Ha Hok Hdesc Hop Hc Hpost.
  assert (Forall (λ k : Link, 0 ≤ InfixInfo.lbp (linkOp k))%nat rest) as Hbp
    by (apply Forall_forall; intros; lia).
  assert (∀ tail, endsExpr (close :: tail) = true) as Hends
    by (intros tail; eapply endsExpr_kind; [exact Hclose | reflexivity]).
  unfold parseExpr, parseExpr_. split.
  - change (3 + List.length rest + n)%nat
      with (S (S (S (List.length rest + n)))).
    rewrite parsePratt_S, body_paren by exact Hopen.
    rewrite pratt_left_fold by auto.
    run_stream. rewrite bool_decide_eq_false_2 by (rewrite Hclose; auto).
    rewrite loop_infix; [|exact Hop|lia].
    rewrite pratt_operand; [|exact Hc|apply endsExpr_stops, Hpost].
    rewrite loop_stops by apply endsExpr_stops, Hpost.
    repeat (rewrite <- !List.app_assoc; cbn [app]). reflexivity.
  - change (4 + List.length rest + n)%nat
      with (S (S (S (S (List.length rest + n))))).
    rewrite parsePratt_S, body_operand by exact Hc.
    rewrite loop_infix; [|exact Hop|lia].
    rewrite parsePratt_S, body_paren by exact Hopen.
    rewrite pratt_left_fold by auto.
    run_stream. rewrite bool_decide_eq_false_2 by (rewrite Hclose; auto).
    rewrite !loop_stops by apply endsExpr_stops, Hpost.
    repeat (rewrite <- !List.app_assoc; cbn [app]). reflexivity.
Qed.

(** Property X13.  A parenthesis that is not closed: when the expression
    after [(] is followed by a token other than [)], or by the end of the
    stream, the parser throws the located syntax error for that token
    ([EOF] at [{-1, -1}] at the end), with the cursor on it. *)
Theorem unclosed_parenthesis (n : nat) a rest (open tok : Token.t) pre post :
  Token.kind open = TokenKind.OpenParen →
  Token.kind tok ≠ TokenKind.CloseParen →
  endsExpr (tok :: post) = true →
  operand a = true → Forall linkOk rest → descending rest →
  parseExpr (3 + List.length rest + n)
    (cursor pre (open :: a :: chainTokens rest ++ tok :: post))
  = Throw
      (error ("unexpected token: " +:+ TokenKind.name (Token.kind tok))
         (Token.loc tok))
      (cursor (pre ++ open :: a :: chainTokens rest) (tok :: post)) ∧
  parseExpr (3 + List.length rest + n)
    (cursor pre (open :: a :: chainTokens rest ++ []))
  = Throw (error "unexpected token: EOF" {| line := -1; column := -1 |})
      (cursor (pre ++ open :: a :: chainTokens rest) []).
Proof.
  intros Hopen Htok Hends Ha Hok Hdesc.
  assert (Forall (λ k : Link, 0 ≤ InfixInfo.lbp (linkOp k))%nat rest) as Hbp
    by (apply Forall_forall; intros; lia).
  unfold parseExpr, parseExpr_.
  change (3 + List.length rest + n)%nat
    with (S (S (S (List.length rest + n)))).
  rewrite !parsePratt_S, !body_paren by exact Hopen.
  rewrite !pratt_left_fold by auto.
  run_stream. split.
  - rewrite bool_decide_eq_true_2 by exact Htok.
    repeat (rewrite <- !List.app_assoc; cbn [app]). reflexivity.
  - rewrite bool_decide_eq_true_2 by discriminate.
    repeat (rewrite <- !List.app_assoc; cbn [app]). reflexivity.
Qed.

End Grouping.

(** ** Instances *)

Section Witnesses.

Lemma parse_returns_vars_and_empty_functions_witness :
  ∃ decls,
    Unit (map declNode program) {| line := 1; column := 1 |}
    = Unit decls {| line := 1; column := 1 |} ∧
    forallb topLevelDecl decls = true.
Proof.
  apply (parse_returns_vars_and_empty_functions 8
           (Unit (map declNode program) {| line := 1; column := 1 |})
           (TokenStream.new (programTokens program))
           (consumed (programTokens program))).
  vm_compute. reflexivity.
Defined.

Lemma descending_chain_folds_left_witness :
  parseExpr 5 (cursor [] (tok_a :: chainTokens chain_down ++ []))
  = Return (leftFold (leaf tok_a) chain_down)
      (cursor ([] ++ tok_a :: chainTokens chain_down) []).
Proof.
  apply (descending_chain_folds_left 0 tok_a chain_down [] []).
  - reflexivity.
  - repeat constructor.
  - simpl. lia.
  - reflexivity.
Defined.

Lemma ascending_chain_nests_right_witness :
  parseExpr 5 (cursor [] (tok_a :: chainTokens chain_up ++ []))
  = Return (rightNest tok_a chain_up)
      (cursor ([] ++ tok_a :: chainTokens chain_up) []).
Proof.
  apply (ascending_chain_nests_right 0 tok_a chain_up [] []).
  - reflexivity.
  - repeat constructor.
  - simpl. lia.
  - reflexivity.
Defined.

Lemma prefix_operators_nest_witness :
  parseExpr 4 (cursor [] (prefixTokens prefixes ++ tok_a :: []))
  = Return (unaryNest prefixes tok_a)
      (cursor ([] ++ prefixTokens prefixes ++ [tok_a]) []).
Proof.
  apply (prefix_operators_nest 0 prefixes tok_a [] []).
  - reflexivity.
  - repeat constructor.
  - reflexivity.
Defined.

Lemma infix_then_prefix_witness :
  parseExpr 5
    (cursor [] (tok_a :: infixToken op_sub (col 2) ::
                prefixTokens prefixes ++ tok_b :: []))
  = Return
      (Binary (binaryMode (InfixInfo.token op_sub)) (leaf tok_a)
         (unaryNest prefixes tok_b) (col 2))
      (cursor
         ([] ++ tok_a :: infixToken op_sub (col 2) ::
          prefixTokens prefixes ++ [tok_b])
         []).
Proof.
  apply (infix_then_prefix 0 op_sub (col 2) prefixes tok_a tok_b [] []).
  - reflexivity.
  - reflexivity.
  - repeat constructor.
  - repeat constructor.
  - reflexivity.
Defined.


Lemma grouping_overrides_tiers_witness :
  parseExpr 4
    (cursor []
       (TOKEN TokenKind.OpenParen (col 0) :: tok_a :: chainTokens chain_lt ++
        TOKEN TokenKind.CloseParen (col 4) :: infixToken op_mul (col 6) ::
        tok_d :: []))
  = Return
      (Binary (binaryMode (InfixInfo.token op_mul))
         (leftFold (leaf tok_a) chain_lt) (leaf tok_d) (col 6))
      (cursor
         ([] ++ TOKEN TokenKind.OpenParen (col 0) :: tok_a ::
          chainTokens chain_lt ++
          [TOKEN TokenKind.CloseParen (col 4); infixToken op_mul (col 6);
           tok_d])
         []) ∧
  parseExpr 5
    (cursor []
       (tok_d :: infixToken op_mul (col 6) ::
        TOKEN TokenKind.OpenParen (col 0) :: tok_a :: chainTokens chain_lt ++
        TOKEN TokenKind.CloseParen (col 4) :: []))
  = Return
      (Binary (binaryMode (InfixInfo.token op_mul))
         (leaf tok_d) (leftFold (leaf tok_a) chain_lt) (col 6))
      (cursor
         ([] ++ tok_d :: infixToken op_mul (col 6) ::
          TOKEN TokenKind.OpenParen (col 0) :: tok_a ::
          chainTokens chain_lt ++ [TOKEN TokenKind.CloseParen (col 4)])
         []).
Proof.
  apply (grouping_overrides_tiers 0 tok_a chain_lt
           (TOKEN TokenKind.OpenParen (col 0))
           (TOKEN TokenKind.CloseParen (col 4)) op_mul (col 6) tok_d [] []).
  - reflexivity.
  - reflexivity.
  - reflexivity.
  - repeat constructor.
  - simpl. lia.
  - repeat constructor.
  - reflexivity.
  - reflexivity.
Defined.

Lemma unclosed_parenthesis_witness :
  parseExpr 4
    (cursor []
       (TOKEN TokenKind.OpenParen (col 0) :: tok_a :: chainTokens chain_lt ++
        TOKEN TokenKind.SemiColon (col 4) :: []))
  = Throw (error ("unexpected token: " +:+ TokenKind.name TokenKind.SemiColon)
             (col 4))
      (cursor
         ([] ++ TOKEN TokenKind.OpenParen (col 0) :: tok_a ::
          chainTokens chain_lt)
         (TOKEN TokenKind.SemiColon (col 4) :: [])) ∧
  parseExpr 4
    (cursor []
       (TOKEN TokenKind.OpenParen (col 0) :: tok_a :: chainTokens chain_lt ++
        []))
  = Throw (error "unexpected token: EOF" {| line := -1; column := -1 |})
      (cursor
         ([] ++ TOKEN TokenKind.OpenParen (col 0) :: tok_a ::
          chainTokens chain_lt)
         []).
Proof.
  apply (unclosed_parenthesis 0 tok_a chain_lt
           (TOKEN TokenKind.OpenParen (col 0))
           (TOKEN TokenKind.SemiColon (col 4)) [] []).
  - reflexivity.
  - discriminate.
  - reflexivity.
  - reflexivity.
  - repeat constructor.
  - simpl. lia.
Defined.


Lemma parseParams_returns_the_names_witness :
  parseParams 4
    (cursor []
       (TOKEN TokenKind.OpenParen (col 0) :: paramTokens params_aba ++
        TOKEN TokenKind.CloseParen (col 6) :: []))
  = Return (paramNames params_aba)
      (cursor
         ([] ++ TOKEN TokenKind.OpenParen (col 0) :: paramTokens params_aba ++
          [TOKEN TokenKind.CloseParen (col 6)])
         []).
Proof.
  apply (parseParams_returns_the_names 0 params_aba
           (TOKEN TokenKind.OpenParen (col 0))
           (TOKEN TokenKind.CloseParen (col 6)) [] []).
  - reflexivity.
  - reflexivity.
  - repeat constructor.
Defined.

Lemma parseParams_rejects_witness :
  parseParams 4
    (cursor []
       (TOKEN TokenKind.OpenParen (col 0) :: paramTokens params_aba ++
        TOKEN TokenKind.Comma (col 6) :: TOKEN TokenKind.CloseParen (col 7) ::
        []))
  = Throw (error "unexpected token: CloseParen" (col 7))
      (cursor
         ([] ++ TOKEN TokenKind.OpenParen (col 0) :: paramTokens params_aba ++
          [TOKEN TokenKind.Comma (col 6)])
         (TOKEN TokenKind.CloseParen (col 7) :: [])) ∧
  parseParams 4
    (cursor []
       (TOKEN TokenKind.OpenParen (col 0) :: paramTokens params_aba ++
        tok_d :: []))
  = Throw
      (error ("unexpected token: " +:+ TokenKind.name TokenKind.Identifier)
         (col 7))
      (cursor
         ([] ++ TOKEN TokenKind.OpenParen (col 0) :: paramTokens params_aba)
         (tok_d :: [])) ∧
  parseParams 4
    (cursor []
       (TOKEN TokenKind.OpenParen (col 0) :: paramTokens params_aba ++ []))
  = Throw (error "unexpected token: EOF" {| line := -1; column := -1 |})
      (cursor
         ([] ++ TOKEN TokenKind.OpenParen (col 0) :: paramTokens params_aba)
         []).
Proof.
  apply (parseParams_rejects 0 params_aba
           (TOKEN TokenKind.OpenParen (col 0))
           (TOKEN TokenKind.Comma (col 6))
           (TOKEN TokenKind.CloseParen (col 7)) tok_d [] []).
  - reflexivity.
  - reflexivity.
  - reflexivity.
  - discriminate.
  - discriminate.
  - repeat constructor.
  - simpl. lia.
Defined.

Lemma parse_program_witness :
  parse 8 (TokenStream.new (programTokens program))
  = Return (Unit (map declNode program) {| line := 1; column := 1 |})
      (consumed (programTokens program)).
Proof.
  apply (parse_program 4 program).
  - repeat constructor.
  - repeat constructor.
Defined.

Lemma parseExpr_rejects_other_starts_witness :
  parseExpr 1 (cursor [tok_a] (TOKEN TokenKind.CloseParen (col 2) :: []))
  = Throw
      (Error ("unexpected token: " +:+ TokenKind.name TokenKind.CloseParen))
      (cursor [tok_a] (TOKEN TokenKind.CloseParen (col 2) :: [])) ∧
  parseExpr 1 (cursor [tok_a] [])
  = Throw (Error "unexpected token: EOF") (cursor [tok_a] []).
Proof.
  apply (parseExpr_rejects_other_starts 0
           (TOKEN TokenKind.CloseParen (col 2)) [tok_a] []).
  reflexivity.
Defined.

Lemma parseBlock_accepts_only_empty_witness :
  parseBlock 1
    (cursor [] (TOKEN TokenKind.OpenBrace (col 0) :: tok_a :: []))
  = (if bool_decide (Token.kind tok_a = TokenKind.CloseBrace)
     then Return [] (cursor ([] ++ [TOKEN TokenKind.OpenBrace (col 0); tok_a]) [])
     else Throw (Error "todo")
            (cursor ([] ++ [TOKEN TokenKind.OpenBrace (col 0)]) (tok_a :: []))) ∧
  parseBlock 1 (cursor [] [TOKEN TokenKind.OpenBrace (col 0)])
  = Throw (Error "todo") (cursor ([] ++ [TOKEN TokenKind.OpenBrace (col 0)]) []).
Proof.
  apply (parseBlock_accepts_only_empty 0
           (TOKEN TokenKind.OpenBrace (col 0)) tok_a [] []).
  reflexivity.
Defined.


Lemma parseIf_with_empty_blocks_witness :
  parseIf 3
    (cursor []
       (kw TokenKind.If 20 :: kw TokenKind.OpenParen 21 :: tok_a ::
        chainTokens chain_lt ++
        kw TokenKind.CloseParen 22 :: kw TokenKind.OpenBrace 23 ::
        kw TokenKind.CloseBrace 24 :: []))
  = Return
      (If (leftFold (leaf tok_a) chain_lt)
         (Block [] (Token.loc (kw TokenKind.OpenBrace 23))) None
         (Token.loc (kw TokenKind.If 20)))
      (cursor
         ([] ++ kw TokenKind.If 20 :: kw TokenKind.OpenParen 21 :: tok_a ::
          chainTokens chain_lt ++
          [kw TokenKind.CloseParen 22; kw TokenKind.OpenBrace 23;
           kw TokenKind.CloseBrace 24])
         []) ∧
  parseIf 3
    (cursor []
       (kw TokenKind.If 20 :: kw TokenKind.OpenParen 21 :: tok_a ::
        chainTokens chain_lt ++
        kw TokenKind.CloseParen 22 :: kw TokenKind.OpenBrace 23 ::
        kw TokenKind.CloseBrace 24 :: kw TokenKind.Else 25 ::
        kw TokenKind.OpenBrace 26 :: kw TokenKind.CloseBrace 27 :: []))
  = Return
      (If (leftFold (leaf tok_a) chain_lt)
         (Block [] (Token.loc (kw TokenKind.OpenBrace 23)))
         (Some (Block [] (Token.loc (kw TokenKind.Else 25))))
         (Token.loc (kw TokenKind.If 20)))
      (cursor
         ([] ++ kw TokenKind.If 20 :: kw TokenKind.OpenParen 21 :: tok_a ::
          chainTokens chain_lt ++
          [kw TokenKind.CloseParen 22; kw TokenKind.OpenBrace 23;
           kw TokenKind.CloseBrace 24; kw TokenKind.Else 25;
           kw TokenKind.OpenBrace 26; kw TokenKind.CloseBrace 27])
         []) ∧
  parseIf 3
    (cursor []
       (kw TokenKind.If 20 :: kw TokenKind.OpenParen 21 :: tok_a ::
        chainTokens chain_lt ++
        kw TokenKind.CloseParen 22 :: kw TokenKind.OpenBrace 23 ::
        kw TokenKind.CloseBrace 24 :: kw TokenKind.Else 25 ::
        kw TokenKind.If 28 :: []))
  = Throw
      (error
         ("unexpected token: " +:+
          TokenKind.name (Token.kind (kw TokenKind.If 28)))
         (Token.loc (kw TokenKind.If 28)))
      (cursor
         ([] ++ kw TokenKind.If 20 :: kw TokenKind.OpenParen 21 :: tok_a ::
          chainTokens chain_lt ++
          [kw TokenKind.CloseParen 22; kw TokenKind.OpenBrace 23;
           kw TokenKind.CloseBrace 24; kw TokenKind.Else 25])
         (kw TokenKind.If 28 :: [])).
Proof.
  apply (parseIf_with_empty_blocks 0 tok_a chain_lt
           (kw TokenKind.If 20) (kw TokenKind.OpenParen 21)
           (kw TokenKind.CloseParen 22) (kw TokenKind.OpenBrace 23)
           (kw TokenKind.CloseBrace 24) (kw TokenKind.Else 25)
           (kw TokenKind.OpenBrace 26) (kw TokenKind.CloseBrace 27)
           (kw TokenKind.If 28) [] [] []).
  - reflexivity.
  - reflexivity.
  - reflexivity.
  - reflexivity.
  - reflexivity.
  - reflexivity.
  - reflexivity.
  - reflexivity.
  - discriminate.
  - discriminate.
  - reflexivity.
  - repeat constructor.
  - simpl. lia.
Defined.

Lemma parseWhile_with_empty_body_witness :
  parseWhile 3
    (cursor []
       (kw TokenKind.While 30 :: kw TokenKind.OpenParen 21 :: tok_a ::
        chainTokens chain_lt ++
        kw TokenKind.CloseParen 22 :: kw TokenKind.OpenBrace 23 ::
        kw TokenKind.CloseBrace 24 :: []))
  = Return
      (While WhileMode.while (leftFold (leaf tok_a) chain_lt) []
         (Token.loc (kw TokenKind.While 30)))
      (cursor
         ([] ++ kw TokenKind.While 30 :: kw TokenKind.OpenParen 21 :: tok_a ::
          chainTokens chain_lt ++
          [kw TokenKind.CloseParen 22; kw TokenKind.OpenBrace 23;
           kw TokenKind.CloseBrace 24])
         []) ∧
  parseWhile 3
    (cursor []
       (kw TokenKind.Do 31 :: kw TokenKind.OpenBrace 23 ::
        kw TokenKind.CloseBrace 24 :: kw TokenKind.While 30 ::
        kw TokenKind.OpenParen 21 :: tok_a :: chainTokens chain_lt ++
        kw TokenKind.CloseParen 22 :: []))
  = Return
      (While WhileMode.do_while (leftFold (leaf tok_a) chain_lt) []
         (Token.loc (kw TokenKind.Do 31)))
      (cursor
         ([] ++ kw TokenKind.Do 31 :: kw TokenKind.OpenBrace 23 ::
          kw TokenKind.CloseBrace 24 :: kw TokenKind.While 30 ::
          kw TokenKind.OpenParen 21 :: tok_a ::
          chainTokens chain_lt ++ [kw TokenKind.CloseParen 22])
         []) ∧
  parseWhile 3 (cursor [] (kw TokenKind.If 28 :: []))
  = Throw
      (error
         ("unexpected token: " +:+
          TokenKind.name (Token.kind (kw TokenKind.If 28)))
         (Token.loc (kw TokenKind.If 28)))
      (cursor [] (kw TokenKind.If 28 :: [])).
Proof.
  apply (parseWhile_with_empty_body 0 tok_a chain_lt
           (kw TokenKind.While 30) (kw TokenKind.Do 31)
           (kw TokenKind.OpenParen 21) (kw TokenKind.CloseParen 22)
           (kw TokenKind.OpenBrace 23) (kw TokenKind.CloseBrace 24)
           (kw TokenKind.If 28) [] []).
  - reflexivity.
  - reflexivity.
  - reflexivity.
  - reflexivity.
  - reflexivity.
  - reflexivity.
  - discriminate.
  - discriminate.
  - reflexivity.
  - repeat constructor.
  - simpl. lia.
Defined.

End Witnesses.
